(** * Calendar synchronisation of the convo app

    A shallow embedding of

    - the invite request handler [sendInviteHandler] of
      [src/pages/api/actions/google/sendInvite.ts] and
    - the event synchroniser, [parseEvents] and [updateEvents],

    together with the properties the specification states about them.

    JavaScript values are modelled as follows.  Strings are [string];
    [string | null | undefined] is [option string]; a value used as a
    condition goes through an explicit truthiness test ([truthy],
    [nonEmpty]); arrays are lists read with [nth_error]; an [async]
    function is a computation in the monad [M], which threads the state of
    the outside world (calendar provider, database) together with the trace
    of the calls made and of the lines written by [console.error], and which
    ends either with a value or with the thrown value. *)

From Stdlib Require Import String Ascii List Bool Arith NArith Lia.
Import ListNotations.
Local Open Scope string_scope.
Local Open Scope list_scope.

Set Implicit Arguments.

(** ** JavaScript strings and truthiness *)

(** [s.includes(searchString)]: some suffix of [s] starts with
    [searchString]. *)
Fixpoint includes (s searchString : string) : bool :=
  if String.prefix searchString s then true
  else match s with
       | EmptyString => false
       | String _ s' => includes s' searchString
       end.

(** A string used as a condition: only the empty string is falsy. *)
Definition nonEmpty (s : string) : bool :=
  match s with EmptyString => false | String _ _ => true end.

(** A [string | null | undefined] used as a condition. *)
Definition truthy (v : option string) : bool :=
  match v with Some s => nonEmpty s | None => false end.

(** A [string | null] inside a template literal. *)
Definition render (v : option string) : string :=
  match v with Some s => s | None => "null" end.

(** ** Thrown values and outcomes *)

Inductive Thrown : Type :=
| JsError (message : string)          (* [new Error(message)] *)
| Failure (detail : string).          (* a rejection coming from outside *)

Inductive result (A : Type) : Type :=
| Ok (value : A)
| Throw (reason : Thrown).
Arguments Ok {A} value.
Arguments Throw {A} reason.

(** ** Data model *)

(** [Date] values are only ever passed to [toString]. *)
Definition Date := nat.

Module User.
(** The [User] model of the Prisma schema (scalar fields). *)
Record t : Type := mk
  { id : string;
    email : option string;
    address : option string;
    nickname : string }.
End User.

Module FullEvent.
(** Modelled from the spec: the type [FullEvent] is declared in
    [createEvent.ts], which is not part of the sources.  Following section
    3 of the specification and the [Event] model of the schema, it is an
    event row together with its proposer; the fields below are the ones
    the synchroniser reads. *)
Record t : Type := mk
  { id : string;
    title : string;
    descriptionHtml : option string;
    startDateTime : Date;
    endDateTime : Date;
    location : string;
    hash : string;
    isDeleted : bool;
    gCalEventId : option string;
    gCalId : option string;
    proposer : User.t }.
End FullEvent.

(** [calendar_v3.Schema$EventAttendee]; never inspected by this code. *)
Record EventAttendee : Type :=
  { attendeeEmail : string;
    responseStatus : string }.

Record EventDateTime : Type := { dateTime : string }.

Module ParsedEvent.
(** An element of [ParsedEvents]: the calendar payload plus the four
    bookkeeping fields. *)
Record t : Type := mk
  { databaseId : string;
    isDeleted : bool;
    gCalId : option string;
    gCalEventId : option string;
    summary : string;
    start : EventDateTime;
    end_ : EventDateTime;
    guestsCanSeeOtherGuests : bool;
    guestsCanInviteOthers : bool;
    location : string;
    description : string;
    attendees : option (list EventAttendee) }.

(** [{ ...parsedEvent, attendees }] *)
Definition withAttendees (e : t) (a : list EventAttendee) : t :=
  {| databaseId := databaseId e;
     isDeleted := isDeleted e;
     gCalId := gCalId e;
     gCalEventId := gCalEventId e;
     summary := summary e;
     start := start e;
     end_ := end_ e;
     guestsCanSeeOtherGuests := guestsCanSeeOtherGuests e;
     guestsCanInviteOthers := guestsCanInviteOthers e;
     location := location e;
     description := description e;
     attendees := Some a |}.
End ParsedEvent.

(** The remote event as the provider returns it ([Schema$Event]); the code
    reads [id] and [attendees]. *)
Module RemoteEvent.
Record t : Type := mk
  { id : option string;
    attendees : option (list EventAttendee) }.
End RemoteEvent.

(** The response of [calendar.events.update]. *)
Record UpdateResponse : Type := { data : RemoteEvent.t }.

(** The argument of [calendar.events.update]. *)
Record UpdateParams : Type :=
  { eventId : option string;
    requestBody : ParsedEvent.t }.

(** The element type of the list [updateEvents] returns. *)
Record IdPair : Type :=
  { calendarEventId : option string;
    databaseEventId : option string }.

(** ** The outside world *)

(** What [console.error] was given. *)
Inductive Logged : Type :=
| Text (s : string)
| Caught (e : Thrown).

(** One observable step: a call that left the process, with its outcome, or
    a line on the error console. *)
Inductive Effect : Type :=
| GetCalendar (failed : option Thrown)
| GetEvent (calendarId gCalEventId : string) (r : result RemoteEvent.t)
| EventsUpdate (params : UpdateParams) (r : result UpdateResponse)
| SendInvite (events : list string) (attendee : string) (r : result unit)
| UserFindUnique (email : string) (r : result (option User.t))
| RsvpUpdate (event : option string) (attendeeId : string) (r : result unit)
| ConsoleError (v : Logged).

(** The calendar client [getCalendar] resolves to. *)
Record CalendarClient (W : Type) : Type :=
  { events_update : UpdateParams -> W -> result UpdateResponse * W }.

(** Everything the two functions import: the calendar adapter and the
    database client, as transitions on a world [W] of their own. *)
Record External (W : Type) : Type :=
  { getCalendar : W -> result (CalendarClient W) * W;
    getEvent : string -> string -> W -> result RemoteEvent.t * W;
    sendInvite : list string -> string -> W -> result unit * W;
    user_findUnique : string -> W -> result (option User.t) * W;
    rsvp_update : option string -> string -> W -> result unit * W }.

(** ** The monad of asynchronous computations *)

Section Model.

Variable W : Type.

(** The state a computation runs in: the world behind the imported
    functions and the effects observed so far, oldest first. *)
Record St : Type := mkSt { world : W; trace : list Effect }.

Definition M (A : Type) : Type := St -> result A * St.

Definition ret {A} (a : A) : M A := fun st => (Ok a, st).

Definition bind {A B} (m : M A) (k : A -> M B) : M B :=
  fun st =>
    match m st with
    | (Ok a, st') => k a st'
    | (Throw e, st') => (Throw e, st')
    end.

Notation "x <- m ;; k" := (bind m (fun x => k))
  (at level 61, m at next level, right associativity).
Notation "m ;;; k" := (bind m (fun _ => k))
  (at level 61, right associativity).

(** [throw e] *)
Definition throw {A} (e : Thrown) : M A := fun st => (Throw e, st).

(** [try { m } catch (err) { handler(err) }] *)
Definition tryCatch {A} (m : M A) (handler : Thrown -> M A) : M A :=
  fun st =>
    match m st with
    | (Ok a, st') => (Ok a, st')
    | (Throw e, st') => handler e st'
    end.

(** A pure computation that may throw, run inside an [async] function. *)
Definition lift {A} (r : result A) : M A := fun st => (r, st).

(** [console.error(v)] *)
Definition console_error (v : Logged) : M unit :=
  fun st => (Ok tt, {| world := world st; trace := trace st ++ [ConsoleError v] |}).

(** A promise is represented by the outcome it settles with.  Calling an
    imported asynchronous function moves the world, records the call and
    hands back the promise; the call itself does not throw.  Calls that are
    in flight together are taken in the order in which they were made: the
    outcome of a call is fixed when the call is made. *)
Definition Promise (A : Type) : Type := result A.

Definition invoke {A} (op : W -> result A * W) (observe : result A -> Effect)
  : M (Promise A) :=
  fun st =>
    let (r, w') := op (world st) in
    (Ok r, {| world := w'; trace := trace st ++ [observe r] |}).

(** [await p] *)
Definition await {A} (p : Promise A) : M A := lift p.

(** [await Promise.all(ps)]: the values in the order of [ps] when every
    promise resolves, a rejection as soon as one of them rejects.  Which
    rejection is reported when several promises reject depends on timing;
    the model reports the one of lowest index. *)
Fixpoint Promise_all {A} (ps : list (Promise A)) : result (list A) :=
  match ps with
  | [] => Ok []
  | Ok a :: ps' =>
      match Promise_all ps' with
      | Ok l => Ok (a :: l)
      | Throw e => Throw e
      end
  | Throw e :: _ => Throw e
  end.

(** [xs.map(f)] for a callback with effects: the calls happen in index
    order. *)
Fixpoint mapM {A B} (f : A -> M B) (xs : list A) : M (list B) :=
  match xs with
  | [] => ret []
  | x :: xs' => y <- f x ;; ys <- mapM f xs' ;; ret (y :: ys)
  end.

(** [xs.map(f)] for a pure callback that may throw. *)
Fixpoint mapThrow {A B} (f : A -> result B) (xs : list A) : result (list B) :=
  match xs with
  | [] => Ok []
  | x :: xs' =>
      match f x with
      | Throw e => Throw e
      | Ok y =>
          match mapThrow f xs' with
          | Throw e => Throw e
          | Ok ys => Ok (y :: ys)
          end
      end
  end.

(** [xs.map((x, key) => f(x, key))] *)
Fixpoint mapi_from {A B} (key : nat) (f : A -> nat -> B) (xs : list A) : list B :=
  match xs with
  | [] => []
  | x :: xs' => f x key :: mapi_from (S key) f xs'
  end.

Definition mapi {A B} (f : A -> nat -> B) (xs : list A) : list B :=
  mapi_from 0 f xs.

(** How one turn of a [for] loop ends: by falling through or [continue]
    ([Next]), or by [break]. *)
Inductive Ctl : Type := Next | Break.

(** [for (let i = start; i < start + turns; i++) body]: the loop variables
    other than [i] are carried in [s]. *)
Fixpoint forRange {S} (turns i : nat) (body : nat -> S -> M (Ctl * S)) (s : S)
  : M S :=
  match turns with
  | O => ret s
  | Datatypes.S turns' =>
      cs <- body i s ;;
      match cs with
      | (Break, s') => ret s'
      | (Next, s') => forRange turns' (Datatypes.S i) body s'
      end
  end.

(** A value narrowed to [string] by a preceding truthiness test. *)
Definition narrowed (v : option string) : string :=
  match v with Some s => s | None => "" end.

(** ** The event synchroniser *)

Variable ext : External W.

(** [Date.prototype.toString], which depends on the time zone of the
    process. *)
Variable Date_toString : Date -> string.

(** [await getCalendar()] *)
Definition await_getCalendar : M (CalendarClient W) :=
  p <- invoke (getCalendar ext)
         (fun r => match r with
                   | Ok _ => GetCalendar None
                   | Throw e => GetCalendar (Some e)
                   end) ;;
  await p.

(** [await getEvent(calendarId, gCalEventId)] *)
Definition await_getEvent (calendarId gCalEventId : string) : M RemoteEvent.t :=
  p <- invoke (getEvent ext calendarId gCalEventId)
         (GetEvent calendarId gCalEventId) ;;
  await p.

(** [calendar.events.update(params)], not awaited. *)
Definition calendar_events_update (calendar : CalendarClient W)
  (params : UpdateParams) : M (Promise UpdateResponse) :=
  invoke (events_update calendar params) (EventsUpdate params).

(** [parseEvents] *)
Definition parseEvents (events : list FullEvent.t) (reqHost : string)
  : result (list ParsedEvent.t) :=
  let protocol := if includes reqHost "localhost" then "http" else "https" in
  let parsed :=
    mapThrow
      (fun event =>
         if negb (truthy (FullEvent.gCalEventId event)) then
           Throw (JsError "gCalEventId not found for: [object Object]")
         else
           let title :=
             if FullEvent.isDeleted event
             then ("CANCELLED: " ++ FullEvent.title event)%string
             else FullEvent.title event in
           Ok {| ParsedEvent.databaseId := FullEvent.id event;
                 ParsedEvent.isDeleted := FullEvent.isDeleted event;
                 ParsedEvent.gCalId := FullEvent.gCalId event;
                 ParsedEvent.gCalEventId := FullEvent.gCalEventId event;
                 ParsedEvent.summary := title;
                 ParsedEvent.start :=
                   {| dateTime := Date_toString (FullEvent.startDateTime event) |};
                 ParsedEvent.end_ :=
                   {| dateTime := Date_toString (FullEvent.endDateTime event) |};
                 ParsedEvent.guestsCanSeeOtherGuests := false;
                 ParsedEvent.guestsCanInviteOthers := false;
                 ParsedEvent.location := FullEvent.location event;
                 ParsedEvent.description :=
                   ((render (FullEvent.descriptionHtml event)
                     ++ (if nonEmpty (User.nickname (FullEvent.proposer event))
                         then String "010" (String "010"
                                ("Proposer: "
                                 ++ User.nickname (FullEvent.proposer event)))
                         else ""))
                    ++ (String "010"
                          ("RSVP here: " ++ protocol ++ "://" ++ reqHost
                           ++ "/rsvp/" ++ FullEvent.hash event)))%string;
                 ParsedEvent.attendees := None |})
      events in
  parsed.

(** The argument [events] of [updateEvents]. *)
Record Batch : Type :=
  { updated : list FullEvent.t;
    deleted : list FullEvent.t }.

(** [{ ...e, isDeleted: true }] *)
Definition markDeleted (e : FullEvent.t) : FullEvent.t :=
  {| FullEvent.id := FullEvent.id e;
     FullEvent.title := FullEvent.title e;
     FullEvent.descriptionHtml := FullEvent.descriptionHtml e;
     FullEvent.startDateTime := FullEvent.startDateTime e;
     FullEvent.endDateTime := FullEvent.endDateTime e;
     FullEvent.location := FullEvent.location e;
     FullEvent.hash := FullEvent.hash e;
     FullEvent.isDeleted := true;
     FullEvent.gCalEventId := FullEvent.gCalEventId e;
     FullEvent.gCalId := FullEvent.gCalId e;
     FullEvent.proposer := FullEvent.proposer e |}.

(** [event.attendees || []] *)
Definition orEmpty (a : option (list EventAttendee)) : list EventAttendee :=
  match a with Some l => l | None => [] end.

(** One turn of the loop of [updateEvents] that fetches and prefills the
    attendees: the body of [for (let i = 0; i < parsedEvents.length; i++)],
    with the array [eventsToUpdate] it pushes to. *)
Definition prefillTurn (parsedEvents : list ParsedEvent.t) (i : nat)
  (eventsToUpdate : list ParsedEvent.t) : M (Ctl * list ParsedEvent.t) :=
  let parsedEvent := nth_error parsedEvents i in
  let calendarId := match parsedEvent with
                    | Some pe => ParsedEvent.gCalId pe
                    | None => None
                    end in
  match parsedEvent with
  | None => ret (Next, eventsToUpdate)
  | Some parsedEvent =>
      if ParsedEvent.isDeleted parsedEvent then
        ret (Next, eventsToUpdate ++ [parsedEvent])
      else if negb (truthy (ParsedEvent.gCalEventId parsedEvent)) then
        console_error (Text "gcalEvent id in parsed event not found") ;;;
        ret (Next, eventsToUpdate)
      else if negb (truthy calendarId) then
        console_error (Text "gCalId not defined for the event") ;;;
        ret (Next, eventsToUpdate)
      else
        event <- await_getEvent (narrowed calendarId)
                   (narrowed (ParsedEvent.gCalEventId parsedEvent)) ;;
        let attendees := orEmpty (RemoteEvent.attendees event) in
        ret (Next,
             eventsToUpdate ++ [ParsedEvent.withAttendees parsedEvent attendees])
  end.

(** The argument of the provider call made for [e]. *)
Definition updateParams (e : ParsedEvent.t) : UpdateParams :=
  {| eventId := ParsedEvent.gCalEventId e; requestBody := e |}.

(** [eventsToUpdate.map((e) => calendar.events.update({...}))] *)
Definition updateGcalPromises (calendar : CalendarClient W)
  (eventsToUpdate : list ParsedEvent.t) : M (list (Promise UpdateResponse)) :=
  mapM (fun e => calendar_events_update calendar (updateParams e)) eventsToUpdate.

(** [updated.map((i, key) => ({ calendarEventId, databaseEventId }))] *)
Definition pairIds (allEvents : list FullEvent.t) (updated : list UpdateResponse)
  : list IdPair :=
  mapi (fun i key =>
          {| calendarEventId := RemoteEvent.id (data i);
             databaseEventId :=
               option_map FullEvent.id (nth_error allEvents key) |})
       updated.

(** [updateEvents] *)
Definition updateEvents (events : Batch) (reqHost : string) : M (list IdPair) :=
  let deletedEvents := map markDeleted (deleted events) in
  let allEvents := updated events ++ deletedEvents in
  parsedEvents <- lift (parseEvents allEvents reqHost) ;;
  calendar <- await_getCalendar ;;
  eventsToUpdate <-
    forRange (length parsedEvents) 0 (prefillTurn parsedEvents) [] ;;
  updateGcalPromises <- updateGcalPromises calendar eventsToUpdate ;;
  updated <- lift (Promise_all updateGcalPromises) ;;
  let ids := pairIds allEvents updated in
  ret ids.

(** ** The invite handler *)

(** What the handler reads of the request: the [host] header and the two
    picked fields of the body. *)
Record NextApiRequest : Type :=
  { headers_host : option string;
    body_events : option (list string);
    body_email : option string }.

(** [process.env] *)
Record ProcessEnv : Type := { PROD_HOST : option string }.

(** What [res.status(code).json(payload)] sends. *)
Record Sent : Type := { status : nat; json_data : bool }.

(** [await prisma.user.findUnique({ where: { email } })] *)
Definition await_user_findUnique (email : string) : M (option User.t) :=
  p <- invoke (user_findUnique ext email) (UserFindUnique email) ;;
  await p.

(** [await prisma.rsvp.update(...)] setting [isAddedToGoogleCalendar] on the
    row of [(eventId, attendeeId)]. *)
Definition await_rsvp_update (eventId : option string) (attendeeId : string)
  : M unit :=
  p <- invoke (rsvp_update ext eventId attendeeId) (RsvpUpdate eventId attendeeId) ;;
  await p.

(** [await sendInvite({ events, attendeeEmail })] *)
Definition await_sendInvite (events : list string) (attendee : string) : M unit :=
  p <- invoke (sendInvite ext events attendee) (SendInvite events attendee) ;;
  await p.

(** One turn of the loop of [sendInviteHandler] that marks the RSVP rows:
    the body of [for (let i = 0; i < events.length; i++)]. *)
Definition markTurn (events : list string) (email : string) (i : nat) (_ : unit)
  : M (Ctl * unit) :=
  userId <- await_user_findUnique email ;;
  match userId with
  | None => ret (Break, tt)
  | Some user =>
      tryCatch
        (await_rsvp_update (nth_error events i) (User.id user))
        (fun err => console_error (Caught err)) ;;;
      ret (Next, tt)
  end.

(** [sendInviteHandler] *)
Definition sendInviteHandler (env : ProcessEnv) (req : NextApiRequest) : M Sent :=
  let host := headers_host req in
  let events := body_events req in
  let email := body_email req in
  match events with
  | None => throw (JsError "`events` and/or `email` not found in req.body")
  | Some events =>
      if negb (truthy email) then
        throw (JsError "`events` and/or `email` not found in req.body")
      else
        let email := narrowed email in
        let prodHost := PROD_HOST env in
        if negb (truthy prodHost) then
          throw (JsError "set prodHost in .env -- the host of the app in prod")
        else
          await_sendInvite events email ;;;
          forRange (length events) 0 (markTurn events email) tt ;;;
          ret {| status := 200; json_data := true |}
  end.

End Model.

Arguments ret {W A} a.
Arguments throw {W A} e.
Arguments lift {W A} r.
Arguments console_error {W} v.

Notation "x <- m ;; k" := (bind m (fun x => k))
  (at level 61, m at next level, right associativity).
Notation "m ;;; k" := (bind m (fun _ => k))
  (at level 61, right associativity).

(** ** Views used to state the properties *)

Section Views.

Variable W : Type.
Variable ext : External W.

(** The working set of [updateEvents]: the value of its local [allEvents]. *)
Definition workingSet (events : Batch) : list FullEvent.t :=
  updated events ++ map markDeleted (deleted events).


(** The state after a call that moved the world to [w] and was observed as
    [e]. *)
Definition called (st : St W) (w : W) (e : Effect) : St W :=
  {| world := w; trace := trace st ++ [e] |}.

(** A loop over the elements of a list, without the index. *)
Fixpoint forEach {A S} (step : A -> S -> M W (Ctl * S)) (xs : list A) (s : S)
  : M W S :=
  match xs with
  | [] => ret s
  | x :: xs' =>
      cs <- step x s ;;
      match cs with
      | (Break, s') => ret s'
      | (Next, s') => forEach step xs' s'
      end
  end.

(** What a turn of the prefill loop does with the element it reads. *)
Definition prefillStep (parsedEvent : ParsedEvent.t)
  (eventsToUpdate : list ParsedEvent.t) : M W (Ctl * list ParsedEvent.t) :=
  if ParsedEvent.isDeleted parsedEvent then
    ret (Next, eventsToUpdate ++ [parsedEvent])
  else if negb (truthy (ParsedEvent.gCalEventId parsedEvent)) then
    console_error (Text "gcalEvent id in parsed event not found") ;;;
    ret (Next, eventsToUpdate)
  else if negb (truthy (ParsedEvent.gCalId parsedEvent)) then
    console_error (Text "gCalId not defined for the event") ;;;
    ret (Next, eventsToUpdate)
  else
    event <- await_getEvent ext (narrowed (ParsedEvent.gCalId parsedEvent))
               (narrowed (ParsedEvent.gCalEventId parsedEvent)) ;;
    ret (Next,
         eventsToUpdate
           ++ [ParsedEvent.withAttendees parsedEvent
                 (orEmpty (RemoteEvent.attendees event))]).

(** The events the prefill loop keeps: the deleted ones, and the others
    when they have a calendar id. *)
Definition linked (e : FullEvent.t) : bool :=
  FullEvent.isDeleted e || truthy (FullEvent.gCalId e).

(** The events the prefill loop fetches the attendees of. *)
Definition fetchedFor (e : FullEvent.t) : bool :=
  negb (FullEvent.isDeleted e) && truthy (FullEvent.gCalId e).

(** The error [parseEvents] throws; the template literal prints the
    event object as [[object Object]]. *)
Definition thrownByParse : Thrown :=
  JsError "gCalEventId not found for: [object Object]".

Variable Date_toString : Date -> string.

(** A run of [updateEvents] from [st] gets as far as the provider updates:
    every event was parsed, [getCalendar] resolved to [calendar], and the
    prefill loop ended with [eventsToUpdate] in state [st2]. *)
Definition reachesUpdates (events : Batch) (reqHost : string) (st : St W)
  (calendar : CalendarClient W) (eventsToUpdate : list ParsedEvent.t)
  (st2 : St W) : Prop :=
  exists parsedEvents st1,
    parseEvents Date_toString (workingSet events) reqHost = Ok parsedEvents
    /\ await_getCalendar ext st = (Ok calendar, st1)
    /\ forRange (length parsedEvents) 0 (prefillTurn ext parsedEvents) [] st1
       = (Ok eventsToUpdate, st2).

End Views.

(** The outcome of a prefill loop that ran to its end, as a relation
    between the parsed events, the effects of the loop and the events
    pushed to [eventsToUpdate]. *)
Inductive Prefilled : list ParsedEvent.t -> list Effect -> list ParsedEvent.t -> Prop :=
| Prefilled_done :
    Prefilled [] [] []
| Prefilled_deleted pe rest tr out :
    ParsedEvent.isDeleted pe = true ->
    Prefilled rest tr out ->
    Prefilled (pe :: rest) tr (pe :: out)
| Prefilled_no_remote_id pe rest tr out :
    ParsedEvent.isDeleted pe = false ->
    truthy (ParsedEvent.gCalEventId pe) = false ->
    Prefilled rest tr out ->
    Prefilled (pe :: rest)
      (ConsoleError (Text "gcalEvent id in parsed event not found") :: tr) out
| Prefilled_no_calendar_id pe rest tr out :
    ParsedEvent.isDeleted pe = false ->
    truthy (ParsedEvent.gCalEventId pe) = true ->
    truthy (ParsedEvent.gCalId pe) = false ->
    Prefilled rest tr out ->
    Prefilled (pe :: rest)
      (ConsoleError (Text "gCalId not defined for the event") :: tr) out
| Prefilled_fetched pe remote rest tr out :
    ParsedEvent.isDeleted pe = false ->
    truthy (ParsedEvent.gCalEventId pe) = true ->
    truthy (ParsedEvent.gCalId pe) = true ->
    Prefilled rest tr out ->
    Prefilled (pe :: rest)
      (GetEvent (narrowed (ParsedEvent.gCalId pe))
         (narrowed (ParsedEvent.gCalEventId pe)) (Ok remote) :: tr)
      (ParsedEvent.withAttendees pe (orEmpty (RemoteEvent.attendees remote))
       :: out).

(** The payload [sent] carries the attendees of the fetch [got], made for
    the calendar and the remote event of that payload. *)
Definition carries (got : string * string * RemoteEvent.t) (sent : ParsedEvent.t)
  : Prop :=
  let '(calendarId, gCalEventId, remote) := got in
  ParsedEvent.gCalId sent = Some calendarId
  /\ ParsedEvent.gCalEventId sent = Some gCalEventId
  /\ ParsedEvent.attendees sent
     = Some (match RemoteEvent.attendees remote with
             | Some existing => existing
             | None => []
             end).

(** The attendee fetches that resolved, with what they resolved to. *)
Fixpoint fetched (tr : list Effect) : list (string * string * RemoteEvent.t) :=
  match tr with
  | [] => []
  | GetEvent calendarId gCalEventId (Ok remote) :: tr' =>
      (calendarId, gCalEventId, remote) :: fetched tr'
  | _ :: tr' => fetched tr'
  end.

(** The provider calls [calendar.events.update] found in a trace. *)
Fixpoint updateCalls (tr : list Effect) : list UpdateParams :=
  match tr with
  | [] => []
  | EventsUpdate params _ :: tr' => params :: updateCalls tr'
  | _ :: tr' => updateCalls tr'
  end.

(** The outcomes of those calls. *)
Fixpoint updateOutcomes (tr : list Effect) : list (result UpdateResponse) :=
  match tr with
  | [] => []
  | EventsUpdate _ r :: tr' => r :: updateOutcomes tr'
  | _ :: tr' => updateOutcomes tr'
  end.

(** The attendee fetches [getEvent] found in a trace. *)
Fixpoint fetchCalls (tr : list Effect) : list (string * string) :=
  match tr with
  | [] => []
  | GetEvent calendarId gCalEventId _ :: tr' =>
      (calendarId, gCalEventId) :: fetchCalls tr'
  | _ :: tr' => fetchCalls tr'
  end.

(** The rows [prisma.rsvp.update] was called for. *)
Fixpoint rsvpCalls (tr : list Effect) : list (option string) :=
  match tr with
  | [] => []
  | RsvpUpdate event _ _ :: tr' => event :: rsvpCalls tr'
  | _ :: tr' => rsvpCalls tr'
  end.

(** What the calls of [prisma.rsvp.update] that failed threw. *)
Fixpoint rsvpFailures (tr : list Effect) : list Thrown :=
  match tr with
  | [] => []
  | RsvpUpdate _ _ (Throw e) :: tr' => e :: rsvpFailures tr'
  | _ :: tr' => rsvpFailures tr'
  end.

(** The lines written by [console.error]. *)
Fixpoint errorLines (tr : list Effect) : list Logged :=
  match tr with
  | [] => []
  | ConsoleError v :: tr' => v :: errorLines tr'
  | _ :: tr' => errorLines tr'
  end.

(** [needle] occurs in [s]. *)
Definition Contains (s needle : string) : Prop :=
  exists before after : string, s = (before ++ needle ++ after)%string.

(** The RSVP link of the specification: [{protocol}://{host}/rsvp/{hash}]. *)
Definition rsvpLink (protocol host hash : string) : string :=
  (protocol ++ "://" ++ host ++ "/rsvp/" ++ hash)%string.

(** [s] ends with [suffix]. *)
Definition EndsWith (s suffix : string) : Prop :=
  exists before : string, s = (before ++ suffix)%string.

(** ** A sample deployment

    A world that counts the calls made to it.  The provider answers an
    update with the remote event whose id is the [eventId] it was given and
    rejects the update of the event ["gone"]; every remote event has the
    single attendee [alice]; the database knows one user, [ada], and has no
    RSVP row for the event ["evt-1"]. *)

Definition alice : EventAttendee :=
  {| attendeeEmail := "alice@example.com"; responseStatus := "accepted" |}.

Definition ada : User.t :=
  {| User.id := "u-ada"; User.email := Some "ada@example.com";
     User.address := None; User.nickname := "Ada" |}.

Definition sampleCalendar : CalendarClient nat :=
  {| events_update := fun params n =>
       (if (narrowed (eventId params) =? "gone")%string
        then Throw (Failure "410 Gone")
        else Ok {| data :=
                     {| RemoteEvent.id := eventId params;
                        RemoteEvent.attendees :=
                          ParsedEvent.attendees (requestBody params) |} |},
        S n) |}.

Definition sampleExt : External nat :=
  {| getCalendar := fun n => (Ok sampleCalendar, S n);
     getEvent := fun calendarId gCalEventId n =>
       (Ok {| RemoteEvent.id := Some gCalEventId;
              RemoteEvent.attendees := Some [alice] |}, S n);
     sendInvite := fun _ _ n => (Ok tt, S n);
     user_findUnique := fun email n =>
       (Ok (if (email =? "ada@example.com")%string then Some ada else None), S n);
     rsvp_update := fun event _ n =>
       (if (narrowed event =? "evt-1")%string
        then Throw (Failure "Record to update not found.")
        else Ok tt,
        S n) |}.

Definition sampleToString (d : Date) : string :=
  if Nat.eqb d 0 then "Thu Jan 01 1970 00:00:00 GMT+0000"
  else "Thu Jan 01 1970 01:00:00 GMT+0000".

Definition sampleEvent (id : string) (remote calendar : option string) : FullEvent.t :=
  {| FullEvent.id := id;
     FullEvent.title := "Reading group";
     FullEvent.descriptionHtml := Some "<p>Chapter 3</p>";
     FullEvent.startDateTime := 0;
     FullEvent.endDateTime := 1;
     FullEvent.location := "Library";
     FullEvent.hash := "h4sh";
     FullEvent.isDeleted := false;
     FullEvent.gCalEventId := remote;
     FullEvent.gCalId := calendar;
     FullEvent.proposer := ada |}.

(** Linked to a remote event but to no calendar. *)
Definition eventA : FullEvent.t := sampleEvent "A" (Some "remote-A") None.
(** Fully linked. *)
Definition eventB : FullEvent.t := sampleEvent "B" (Some "remote-B") (Some "primary").
(** Never pushed to the calendar. *)
Definition eventC : FullEvent.t := sampleEvent "C" None (Some "primary").
(** Fully linked; the provider rejects its update. *)
Definition eventD : FullEvent.t := sampleEvent "D" (Some "gone") (Some "primary").

Definition st0 : St nat := {| world := 0; trace := [] |}.

Definition sampleRequest (events : list string) (email : string) : NextApiRequest :=
  {| headers_host := Some "example.com";
     body_events := Some events;
     body_email := Some email |}.

Definition sampleEnv : ProcessEnv := {| PROD_HOST := Some "convo.example.com" |}.

(** The batches used in the examples. *)
Definition skippingBatch : Batch := {| updated := [eventA; eventB]; deleted := [] |}.
Definition unlinkedBatch : Batch := {| updated := [eventC; eventB]; deleted := [] |}.
Definition cancellingBatch : Batch := {| updated := [eventB]; deleted := [eventA] |}.
Definition rejectedBatch : Batch := {| updated := [eventB; eventD]; deleted := [eventA] |}.

(** The pair [pair] matches the provider call [call]: it holds the remote id
    the call resolved to and the database id of the event the call was made
    for. *)
Definition pairedWith (pair : IdPair)
  (call : UpdateParams * result UpdateResponse) : Prop :=
  match snd call with
  | Ok response => calendarEventId pair = RemoteEvent.id (data response)
  | Throw _ => False
  end
  /\ databaseEventId pair = Some (ParsedEvent.databaseId (requestBody (fst call))).

(** What the attendee fetches that failed threw. *)
Fixpoint failedFetches (tr : list Effect) : list Thrown :=
  match tr with
  | [] => []
  | GetEvent _ _ (Throw e) :: tr' => e :: failedFetches tr'
  | _ :: tr' => failedFetches tr'
  end.

(** The lookups [prisma.user.findUnique] found in a trace. *)
Fixpoint lookups (tr : list Effect) : list string :=
  match tr with
  | [] => []
  | UserFindUnique email _ :: tr' => email :: lookups tr'
  | _ :: tr' => lookups tr'
  end.

(** The remote id a provider call resolved to, if it resolved. *)
Definition resolvedId (outcome : result UpdateResponse) : option string :=
  match outcome with
  | Ok response => RemoteEvent.id (data response)
  | Throw _ => None
  end.

(** The request passed the checks of [sendInviteHandler]: it has a list of
    events and a non-empty email, and [PROD_HOST] is set. *)
Definition validRequest (env : ProcessEnv) (req : NextApiRequest)
  (events : list string) (email : string) : Prop :=
  body_events req = Some events
  /\ body_email req = Some email
  /\ nonEmpty email = true
  /\ truthy (PROD_HOST env) = true.

(** ** A deployment that fails

    As the sample deployment, except that [getCalendar] rejects once the
    world has seen ten calls, the events of the calendar ["private"] cannot
    be fetched, invites to ["bounce@example.com"] cannot be sent and the
    user ["down@example.com"] cannot be looked up. *)

Definition failingExt : External nat :=
  {| getCalendar := fun n =>
       (if Nat.leb 10 n then Throw (Failure "401 Unauthorized")
        else Ok sampleCalendar, S n);
     getEvent := fun calendarId gCalEventId n =>
       (if (calendarId =? "private")%string
        then Throw (Failure "403 Forbidden")
        else Ok {| RemoteEvent.id := Some gCalEventId;
                   RemoteEvent.attendees := None |}, S n);
     sendInvite := fun _ attendee n =>
       (if (attendee =? "bounce@example.com")%string
        then Throw (Failure "550 Mailbox unavailable")
        else Ok tt, S n);
     user_findUnique := fun email n =>
       (if (email =? "down@example.com")%string
        then Throw (Failure "P1001 Database unreachable")
        else Ok (if (email =? "ada@example.com")%string then Some ada else None),
        S n);
     rsvp_update := rsvp_update sampleExt |}.

(** Linked to a remote event of the calendar that cannot be read. *)
Definition eventE : FullEvent.t := sampleEvent "E" (Some "remote-E") (Some "private").

Definition lateState : St nat := {| world := 10; trace := [] |}.

Definition unreadableBatch : Batch :=
  {| updated := [eventB; eventE; eventB]; deleted := [eventA] |}.
Definition mixedBatch : Batch :=
  {| updated := [eventA; eventB]; deleted := [eventA; eventB] |}.

(** ** The limit field of the proposal form

    The two refinements of [validationSchema.limit] in
    [components/ProposeForm/index.tsx].  [parseInt] with radix 10 is
    modelled first on the strings of the model, where only code units below
    256 occur, and then on any sequence of UTF-16 code units. *)

(** The code units below 256 that [parseInt] skips at the start of its
    argument: TAB, LF, VT, FF, CR, SP and NBSP. *)
Definition isStrWhiteSpaceChar (c : ascii) : bool :=
  ((c =? "009") || (c =? "010") || (c =? "011") || (c =? "012")
   || (c =? "013") || (c =? " ") || (c =? "160"))%char.

(** The value of a decimal digit. *)
Definition digitOf (c : ascii) : option nat :=
  let n := nat_of_ascii c in
  if Nat.leb 48 n && Nat.leb n 57 then Some (n - 48) else None.

Definition isDigit (c : ascii) : bool :=
  match digitOf c with Some _ => true | None => false end.

(** The argument without its leading white space. *)
Fixpoint trimStart (s : string) : string :=
  match s with
  | EmptyString => EmptyString
  | String c s' => if isStrWhiteSpaceChar c then trimStart s' else s
  end.

(** The values of the digits [s] starts with, up to the first code unit
    that is not a digit. *)
Fixpoint digitRun (s : string) : list nat :=
  match s with
  | EmptyString => []
  | String c s' =>
      match digitOf c with
      | Some d => d :: digitRun s'
      | None => []
      end
  end.

(** The integer written by a run of digits. *)
Definition mathInt (digits : list nat) : nat :=
  fold_left (fun acc d => 10 * acc + d) digits 0.

(** What [parseInt] returns: [NaN], or the double nearest to an integer
    given here by its sign and its exact magnitude.  The two tests applied
    to it below, [Number.isNaN] and [>= 0], do not depend on the rounding. *)
Inductive Number : Type :=
| NaN
| Integer (negative : bool) (magnitude : nat).

(** [parseInt(s, 10)] *)
Definition parseInt10 (s : string) : Number :=
  let trimmed := trimStart s in
  let negative :=
    match trimmed with
    | String c _ => (c =? "-")%char
    | EmptyString => false
    end in
  let unsigned :=
    match trimmed with
    | String c rest => if ((c =? "-") || (c =? "+"))%char then rest else trimmed
    | EmptyString => trimmed
    end in
  match digitRun unsigned with
  | [] => NaN
  | digits => Integer negative (mathInt digits)
  end.

(** [Number.isNaN(x)] *)
Definition Number_isNaN (x : Number) : bool :=
  match x with NaN => true | Integer _ _ => false end.

(** [Number(x) >= 0]; [-0 >= 0] holds. *)
Definition Number_geZero (x : Number) : bool :=
  match x with
  | NaN => false
  | Integer negative magnitude => negb negative || Nat.eqb magnitude 0
  end.

(** [(val) => !Number.isNaN(parseInt(val, 10))] *)
Definition limit_isNumber (val : string) : bool :=
  negb (Number_isNaN (parseInt10 val)).

(** [(val) => Number(parseInt(val, 10)) >= 0] *)
Definition limit_isNotNegative (val : string) : bool :=
  Number_geZero (parseInt10 val).

(** A string passes the [limit] field when it passes both refinements. *)
Definition limitAccepted (val : string) : bool :=
  limit_isNumber val && limit_isNotNegative val.

(** Every code unit of [s] satisfies [p]. *)
Fixpoint allOf (p : ascii -> bool) (s : string) : bool :=
  match s with
  | EmptyString => true
  | String c s' => p c && allOf p s'
  end.

(** [s] starts with a code unit that satisfies [p]. *)
Definition startsWith (p : ascii -> bool) (s : string) : bool :=
  match s with
  | EmptyString => false
  | String c _ => p c
  end.

(** *** The limit field on any JavaScript string

    A JavaScript string is a sequence of UTF-16 code units, given below by
    their numbers.  [Utf16.parseInt10] is [parseInt(s, 10)] on such a
    sequence, with all the white space [parseInt] skips; [codeUnits] gives
    the code units of the strings above. *)

Module Utf16.

Definition CodeUnit : Type := N.

(** [StrWhiteSpaceChar]: the white space TAB, VT, FF, SP, NBSP, ZWNBSP
    (U+FEFF) and the other space separators of Unicode (U+1680, U+2000 to
    U+200A, U+202F, U+205F, U+3000), and the line terminators LF, CR,
    U+2028 and U+2029. *)
Definition isStrWhiteSpaceChar (u : CodeUnit) : bool :=
  ((u =? 0x0009) || (u =? 0x000A) || (u =? 0x000B) || (u =? 0x000C)
   || (u =? 0x000D) || (u =? 0x0020) || (u =? 0x00A0) || (u =? 0x1680)
   || ((0x2000 <=? u) && (u <=? 0x200A))
   || (u =? 0x2028) || (u =? 0x2029) || (u =? 0x202F) || (u =? 0x205F)
   || (u =? 0x3000) || (u =? 0xFEFF))%N.

(** The value of a decimal digit, U+0030 to U+0039. *)
Definition digitOf (u : CodeUnit) : option nat :=
  if ((0x0030 <=? u) && (u <=? 0x0039))%N then Some (N.to_nat (u - 0x0030))
  else None.

Definition isDigit (u : CodeUnit) : bool :=
  match digitOf u with Some _ => true | None => false end.

(** U+002D, the minus sign, and U+002B, the plus sign. *)
Definition isMinus (u : CodeUnit) : bool := (u =? 0x002D)%N.

Definition isPlus (u : CodeUnit) : bool := (u =? 0x002B)%N.

Fixpoint trimStart (s : list CodeUnit) : list CodeUnit :=
  match s with
  | [] => []
  | u :: s' => if isStrWhiteSpaceChar u then trimStart s' else s
  end.

Fixpoint digitRun (s : list CodeUnit) : list nat :=
  match s with
  | [] => []
  | u :: s' =>
      match digitOf u with
      | Some d => d :: digitRun s'
      | None => []
      end
  end.

(** [parseInt(s, 10)] *)
Definition parseInt10 (s : list CodeUnit) : Number :=
  let trimmed := trimStart s in
  let negative :=
    match trimmed with
    | u :: _ => isMinus u
    | [] => false
    end in
  let unsigned :=
    match trimmed with
    | u :: rest => if isMinus u || isPlus u then rest else trimmed
    | [] => trimmed
    end in
  match digitRun unsigned with
  | [] => NaN
  | digits => Integer negative (mathInt digits)
  end.

(** [(val) => !Number.isNaN(parseInt(val, 10))] *)
Definition limit_isNumber (val : list CodeUnit) : bool :=
  negb (Number_isNaN (parseInt10 val)).

(** [(val) => Number(parseInt(val, 10)) >= 0] *)
Definition limit_isNotNegative (val : list CodeUnit) : bool :=
  Number_geZero (parseInt10 val).

Definition limitAccepted (val : list CodeUnit) : bool :=
  limit_isNumber val && limit_isNotNegative val.

(** [s] starts with a code unit that satisfies [p]. *)
Definition startsWith (p : CodeUnit -> bool) (s : list CodeUnit) : bool :=
  match s with
  | [] => false
  | u :: _ => p u
  end.

End Utf16.

(** The code units of a string of the first model. *)
Definition codeUnits (s : string) : list Utf16.CodeUnit :=
  map N_of_ascii (list_ascii_of_string s).

(** * Properties *)

(** ** Strings *)

Lemma prefix_iff_append (p s : string) :
  String.prefix p s = true <-> exists rest, s = (p ++ rest)%string.
Proof.
  revert s; induction p as [|c p IH]; intros s; simpl.
  - destruct s; (split; [intros _; eexists; reflexivity | reflexivity]).
  - destruct s as [|d s].
    + split; [discriminate | intros [rest H]; discriminate].
    + simpl. destruct (Ascii.ascii_dec c d) as [->|ne].
      * rewrite IH. split; intros [rest H]; exists rest.
        -- now rewrite H.
        -- now inversion H.
      * split; [discriminate | intros [rest H]; inversion H; congruence].
Qed.

Lemma includes_Contains (s needle : string) :
  includes s needle = true <-> Contains s needle.
Proof.
  induction s as [|c s IH]; cbn [includes].
  - destruct (String.prefix needle "") eqn:P.
    + split; [intros _ | reflexivity].
      apply prefix_iff_append in P as [rest E].
      exists ""%string, rest. exact E.
    + split; [discriminate |].
      intros [before [after E]].
      destruct before; [| discriminate].
      simpl in E.
      assert (String.prefix needle "" = true)
        by (apply prefix_iff_append; now exists after).
      congruence.
  - destruct (String.prefix needle (String c s)) eqn:P.
    + split; [intros _ | reflexivity].
      apply prefix_iff_append in P as [rest E].
      exists ""%string, rest. exact E.
    + rewrite IH. split.
      * intros [before [after E]]. exists (String c before), after.
        simpl. now rewrite E.
      * intros [before [after E]].
        destruct before as [|b before]; simpl in E.
        -- assert (String.prefix needle (String c s) = true)
             by (apply prefix_iff_append; now exists after).
           congruence.
        -- inversion E; subst. now exists before, after.
Qed.

Lemma append_assoc (a b c : string) :
  ((a ++ b) ++ c = a ++ (b ++ c))%string.
Proof. induction a; simpl; congruence. Qed.

(** ** Arrays *)

Lemma mapThrow_Forall2 {A B} (f : A -> result B) (xs : list A) (ys : list B) :
  mapThrow f xs = Ok ys -> Forall2 (fun x y => f x = Ok y) xs ys.
Proof.
  revert ys; induction xs as [|x xs IH]; simpl; intros ys H.
  - inversion H. constructor.
  - destruct (f x) as [y|] eqn:Fx; [| discriminate].
    destruct (mapThrow f xs) as [ys'|]; [| discriminate].
    inversion H; subst. constructor; auto.
Qed.

Lemma mapThrow_Throw {A B} (f : A -> result B) (xs : list A) (x : A) (e : Thrown) :
  In x xs -> f x = Throw e ->
  (forall y e', f y = Throw e' -> e' = e) ->
  mapThrow f xs = Throw e.
Proof.
  intros Hin Hx Hsame. induction xs as [|a xs IH]; simpl in *; [contradiction |].
  destruct (f a) as [b|e'] eqn:Fa.
  - destruct Hin as [->|Hin]; [congruence |].
    now rewrite (IH Hin).
  - now rewrite (Hsame _ _ Fa).
Qed.

Lemma Forall2_nth_error_l {A B} (R : A -> B -> Prop) (xs : list A) (ys : list B) :
  Forall2 R xs ys ->
  forall k x, nth_error xs k = Some x ->
              exists y, nth_error ys k = Some y /\ R x y.
Proof.
  induction 1 as [|a b xs ys Hab _ IH]; intros k x Hk.
  - destruct k; discriminate.
  - destruct k as [|k]; simpl in Hk.
    + inversion Hk; subst. exists b. split; [reflexivity | assumption].
    + apply IH in Hk. exact Hk.
Qed.

Section Properties.

Variable W : Type.
Variable ext : External W.
Variable Date_toString : Date -> string.

(** ** [parseEvents] *)

(** What [parseEvents] makes of one event it accepts. *)
Lemma parseEvents_each (events : list FullEvent.t) (reqHost : string)
  (parsed : list ParsedEvent.t) :
  parseEvents Date_toString events reqHost = Ok parsed ->
  Forall2
    (fun event p =>
       truthy (FullEvent.gCalEventId event) = true
       /\ ParsedEvent.databaseId p = FullEvent.id event
       /\ ParsedEvent.isDeleted p = FullEvent.isDeleted event
       /\ ParsedEvent.gCalId p = FullEvent.gCalId event
       /\ ParsedEvent.gCalEventId p = FullEvent.gCalEventId event
       /\ ParsedEvent.summary p
          = (if FullEvent.isDeleted event
             then ("CANCELLED: " ++ FullEvent.title event)%string
             else FullEvent.title event)
       /\ ParsedEvent.attendees p = None
       /\ EndsWith (ParsedEvent.description p)
            (rsvpLink (if includes reqHost "localhost" then "http" else "https")
               reqHost (FullEvent.hash event)))
    events parsed.
Proof.
  unfold parseEvents. intros H. apply mapThrow_Forall2 in H.
  induction H as [|event p events parsed Hp _ IH]; constructor; [| exact IH].
  destruct (truthy (FullEvent.gCalEventId event)) eqn:T; simpl in Hp;
    [| discriminate].
  inversion Hp; subst; clear Hp; simpl.
  repeat split; try reflexivity.
  unfold EndsWith, rsvpLink.
  exists ((render (FullEvent.descriptionHtml event)
           ++ (if nonEmpty (User.nickname (FullEvent.proposer event))
               then String "010" (String "010"
                      ("Proposer: " ++ User.nickname (FullEvent.proposer event)))
               else ""))
          ++ String "010" "RSVP here: ")%string.
  rewrite (append_assoc _ (String "010" "RSVP here: ")). reflexivity.
Qed.

Lemma parseEvents_missing_id (events : list FullEvent.t) (reqHost : string)
  (e : FullEvent.t) :
  In e events -> truthy (FullEvent.gCalEventId e) = false ->
  parseEvents Date_toString events reqHost = Throw thrownByParse.
Proof.
  intros Hin Hfalsy. unfold parseEvents.
  apply mapThrow_Throw with (x := e); [assumption | |].
  - now rewrite Hfalsy.
  - intros y e'. unfold thrownByParse.
    destruct (truthy (FullEvent.gCalEventId y)); simpl; congruence.
Qed.

(** ** Loops *)

Lemma forRange_turn {S} (turns i : nat) (body : nat -> S -> M W (Ctl * S))
  (s : S) (st : St W) :
  forRange (Datatypes.S turns) i body s st
  = match body i s st with
    | (Ok (Next, s'), st') => forRange turns (Datatypes.S i) body s' st'
    | (Ok (Break, s'), st') => (Ok s', st')
    | (Throw e, st') => (Throw e, st')
    end.
Proof.
  simpl. unfold bind. destruct (body i s st) as [[[[|] s']|e] st']; reflexivity.
Qed.

Lemma forRange_forEach_from {A S} (body : nat -> S -> M W (Ctl * S))
  (step : A -> S -> M W (Ctl * S)) (xs : list A) :
  (forall i x s st, nth_error xs i = Some x -> body i s st = step x s st) ->
  forall (rest before : list A) (s : S) (st : St W),
    xs = before ++ rest ->
    forRange (length rest) (length before) body s st = forEach step rest s st.
Proof.
  intros Hbody. induction rest as [|x rest IH]; intros before s st E.
  - reflexivity.
  - cbn [length]. rewrite forRange_turn. cbn [forEach]. unfold bind.
    rewrite (Hbody (length before) x).
    + destruct (step x s st) as [[[[|] s']|e] st']; try reflexivity.
      specialize (IH (before ++ [x]) s' st').
      rewrite length_app in IH. simpl in IH.
      rewrite Nat.add_1_r in IH. apply IH.
      rewrite <- app_assoc. exact E.
    + rewrite E. rewrite nth_error_app2 by lia.
      now rewrite Nat.sub_diag.
Qed.

Lemma forRange_forEach {A S} (body : nat -> S -> M W (Ctl * S))
  (step : A -> S -> M W (Ctl * S)) (xs : list A) :
  (forall i x s st, nth_error xs i = Some x -> body i s st = step x s st) ->
  forall (s : S) (st : St W),
    forRange (length xs) 0 body s st = forEach step xs s st.
Proof.
  intros Hbody s st.
  exact (forRange_forEach_from body step Hbody xs [] s st eq_refl).
Qed.

(** ** The prefill loop *)

Lemma prefillTurn_step (parsedEvents : list ParsedEvent.t) (k : nat)
  (pe : ParsedEvent.t) (acc : list ParsedEvent.t) (st : St W) :
  nth_error parsedEvents k = Some pe ->
  prefillTurn ext parsedEvents k acc st = prefillStep ext pe acc st.
Proof. intros H. unfold prefillTurn, prefillStep. rewrite H. reflexivity. Qed.

Lemma prefill_loop_forEach (parsedEvents : list ParsedEvent.t) (st : St W) :
  forRange (length parsedEvents) 0 (prefillTurn ext parsedEvents) [] st
  = forEach (prefillStep ext) parsedEvents [] st.
Proof.
  apply forRange_forEach. intros i x s st' H. now apply prefillTurn_step.
Qed.

(** A loop that ran to its end pushed and did what [Prefilled] says. *)
Lemma forEach_prefill_Prefilled (parsedEvents : list ParsedEvent.t) :
  forall acc st acc' st',
    forEach (prefillStep ext) parsedEvents acc st = (Ok acc', st') ->
    exists out tr,
      acc' = acc ++ out /\ trace st' = trace st ++ tr
      /\ Prefilled parsedEvents tr out.
Proof.
  induction parsedEvents as [|pe rest IH]; intros acc st acc' st' H.
  - inversion H; subst. exists [], []. rewrite !app_nil_r.
    repeat split; constructor.
  - cbn [forEach] in H. unfold bind, prefillStep in H.
    destruct (ParsedEvent.isDeleted pe) eqn:D.
    + simpl in H. apply IH in H as (out & tr & -> & Htr & HP).
      exists (pe :: out), tr. rewrite <- app_assoc. repeat split; auto.
      now constructor.
    + destruct (truthy (ParsedEvent.gCalEventId pe)) eqn:R; simpl in H.
      * destruct (truthy (ParsedEvent.gCalId pe)) eqn:C; simpl in H.
        -- unfold await_getEvent, bind, invoke, await, lift in H.
           destruct (getEvent ext (narrowed (ParsedEvent.gCalId pe))
                       (narrowed (ParsedEvent.gCalEventId pe)) (world st))
             as [[remote|e] w] eqn:G; simpl in H; [| discriminate].
           apply IH in H as (out & tr & -> & Htr & HP). simpl in Htr.
           eexists (_ :: out), (_ :: tr).
           rewrite <- !app_assoc in *. repeat split; eauto.
           now constructor.
        -- apply IH in H as (out & tr & -> & Htr & HP). simpl in Htr.
           exists out, (ConsoleError (Text "gCalId not defined for the event") :: tr).
           rewrite <- app_assoc in Htr. repeat split; auto.
           now constructor.
      * apply IH in H as (out & tr & -> & Htr & HP). simpl in Htr.
        exists out,
          (ConsoleError (Text "gcalEvent id in parsed event not found") :: tr).
        rewrite <- app_assoc in Htr. repeat split; auto.
        now constructor.
Qed.

Lemma truthy_narrowed (v : option string) :
  truthy v = true -> v = Some (narrowed v).
Proof. destruct v; simpl; [reflexivity | discriminate]. Qed.

Lemma Prefilled_keeps_deleted parsedEvents tr out :
  Prefilled parsedEvents tr out ->
  forall pe, In pe parsedEvents -> ParsedEvent.isDeleted pe = true -> In pe out.
Proof.
  induction 1 as [|pe rest tr out D _ IH|pe rest tr out D R _ IH
                  |pe rest tr out D R C _ IH|pe remote rest tr out D R C _ IH];
    intros x Hin Hx; simpl in Hin; try contradiction;
    destruct Hin as [->|Hin]; try congruence; simpl; auto.
Qed.

Lemma Prefilled_sent_are_linked parsedEvents tr out :
  Prefilled parsedEvents tr out ->
  Forall (fun sent => ParsedEvent.isDeleted sent = true
                      \/ truthy (ParsedEvent.gCalId sent) = true) out.
Proof.
  induction 1; try assumption; constructor; auto.
Qed.

Lemma Prefilled_carries parsedEvents tr out :
  Prefilled parsedEvents tr out ->
  Forall2 carries (fetched tr)
    (filter (fun sent => negb (ParsedEvent.isDeleted sent)) out).
Proof.
  induction 1 as [|pe rest tr out D _ IH|pe rest tr out D R _ IH
                  |pe rest tr out D R C _ IH|pe remote rest tr out D R C _ IH];
    simpl; try assumption.
  - constructor.
  - now rewrite D.
  - rewrite D. simpl. constructor; [| assumption].
    unfold carries. simpl.
    rewrite <- (truthy_narrowed _ C), <- (truthy_narrowed _ R).
    repeat split.
Qed.

Lemma Prefilled_no_update parsedEvents tr out :
  Prefilled parsedEvents tr out -> updateCalls tr = [].
Proof. induction 1; simpl; auto. Qed.

Lemma Prefilled_fetchCalls parsedEvents tr out :
  Prefilled parsedEvents tr out ->
  Forall (fun pe => truthy (ParsedEvent.gCalEventId pe) = true) parsedEvents ->
  fetchCalls tr
  = map (fun pe => (narrowed (ParsedEvent.gCalId pe),
                    narrowed (ParsedEvent.gCalEventId pe)))
      (filter (fun pe => negb (ParsedEvent.isDeleted pe)
                         && truthy (ParsedEvent.gCalId pe))
         parsedEvents).
Proof.
  induction 1 as [|pe rest tr out D _ IH|pe rest tr out D R _ IH
                  |pe rest tr out D R C _ IH|pe remote rest tr out D R C _ IH];
    intros Hall; simpl; try reflexivity;
    inversion Hall as [|? ? Hpe Hrest]; subst;
    try rewrite D; try rewrite C; simpl; try congruence.
  - now apply IH.
  - now apply IH.
  - f_equal. now apply IH.
Qed.

Lemma Prefilled_sent_and_logged parsedEvents tr out :
  Prefilled parsedEvents tr out ->
  Forall (fun pe => truthy (ParsedEvent.gCalEventId pe) = true) parsedEvents ->
  map ParsedEvent.databaseId out
  = map ParsedEvent.databaseId
      (filter (fun pe => ParsedEvent.isDeleted pe
                         || truthy (ParsedEvent.gCalId pe))
         parsedEvents)
  /\ errorLines tr
     = map (fun _ => Text "gCalId not defined for the event")
         (filter (fun pe => negb (ParsedEvent.isDeleted pe
                                  || truthy (ParsedEvent.gCalId pe)))
            parsedEvents).
Proof.
  induction 1 as [|pe rest tr out D _ IH|pe rest tr out D R _ IH
                  |pe rest tr out D R C _ IH|pe remote rest tr out D R C _ IH];
    intros Hall; simpl; try (split; reflexivity);
    inversion Hall as [|? ? Hpe Hrest]; subst;
    try rewrite D; try rewrite C; simpl; try congruence;
    destruct (IH Hrest) as [IH1 IH2]; split; congruence.
Qed.

Lemma Prefilled_all_sent parsedEvents tr out :
  Prefilled parsedEvents tr out ->
  Forall (fun pe => truthy (ParsedEvent.gCalEventId pe) = true
                    /\ (ParsedEvent.isDeleted pe
                        || truthy (ParsedEvent.gCalId pe)) = true)
    parsedEvents ->
  Forall2 (fun pe sent => ParsedEvent.databaseId sent = ParsedEvent.databaseId pe)
    parsedEvents out.
Proof.
  induction 1 as [|pe rest tr out D _ IH|pe rest tr out D R _ IH
                  |pe rest tr out D R C _ IH|pe remote rest tr out D R C _ IH];
    intros Hall; try constructor;
    inversion Hall as [|? ? [Hr Hl] Hrest]; subst; auto;
    try congruence.
  rewrite D, C in Hl. discriminate.
Qed.

Lemma filter_map_Forall2 {A B C} (R : A -> B -> Prop) (fA : A -> bool)
  (fB : B -> bool) (gA : A -> C) (gB : B -> C) (xs : list A) (ys : list B) :
  Forall2 R xs ys ->
  (forall x y, R x y -> fA x = fB y /\ gA x = gB y) ->
  map gB (filter fB ys) = map gA (filter fA xs).
Proof.
  intros H HR. induction H as [|x y xs ys Hxy _ IH]; simpl; [reflexivity |].
  destruct (HR x y Hxy) as [-> Hg]. destruct (fB y); simpl; congruence.
Qed.

(** ** The provider updates *)

Lemma updateGcalPromises_run (calendar : CalendarClient W)
  (eventsToUpdate : list ParsedEvent.t) :
  forall st, exists outcomes tr w,
    updateGcalPromises calendar eventsToUpdate st
    = (Ok outcomes, {| world := w; trace := trace st ++ tr |})
    /\ Forall2 (fun e eff => exists r, eff = EventsUpdate (updateParams e) r)
         eventsToUpdate tr
    /\ updateOutcomes tr = outcomes.
Proof.
  unfold updateGcalPromises.
  set (f := fun e => calendar_events_update calendar (updateParams e)).
  induction eventsToUpdate as [|e rest IH]; intros st.
  - exists [], [], (world st). rewrite app_nil_r. destruct st.
    repeat split; constructor.
  - destruct (events_update calendar (updateParams e) (world st)) as [r w1] eqn:U.
    assert (f e st
            = (Ok r, {| world := w1;
                        trace := trace st ++ [EventsUpdate (updateParams e) r] |}))
      as Hf by (unfold f, calendar_events_update, invoke; now rewrite U).
    destruct (IH {| world := w1;
                    trace := trace st ++ [EventsUpdate (updateParams e) r] |})
      as (outcomes & tr & w & Hrun & Hcalls & Hout).
    exists (r :: outcomes), (EventsUpdate (updateParams e) r :: tr), w.
    cbn [mapM]. unfold bind. rewrite Hf, Hrun. simpl.
    rewrite <- app_assoc. simpl. repeat split.
    + constructor; [now exists r | assumption].
    + now rewrite Hout.
Qed.

Lemma issued_updateCalls (eventsToUpdate : list ParsedEvent.t) (tr : list Effect) :
  Forall2 (fun e eff => exists r, eff = EventsUpdate (updateParams e) r)
    eventsToUpdate tr ->
  updateCalls tr = map updateParams eventsToUpdate
  /\ length tr = length eventsToUpdate
  /\ fetchCalls tr = [] /\ errorLines tr = [].
Proof.
  induction 1 as [|e eff l tr [r ->] _ (IH1 & IH2 & IH3 & IH4)]; simpl.
  - auto.
  - rewrite IH1, IH2. auto.
Qed.

Lemma Promise_all_rejects {A} (ps : list (Promise A)) (e : Thrown) :
  In (Throw e) ps -> exists e', Promise_all ps = Throw e'.
Proof.
  induction ps as [|p ps IH]; simpl; [contradiction |].
  intros [->|Hin]; [now exists e |].
  destruct p as [a|e0]; [| now exists e0].
  destruct (IH Hin) as [e' ->]. now exists e'.
Qed.

Lemma Promise_all_resolves {A} (ps : list (Promise A)) (values : list A) :
  Promise_all ps = Ok values <-> ps = map Ok values.
Proof.
  revert values; induction ps as [|p ps IH]; intros values; simpl.
  - split; intros H.
    + inversion H. reflexivity.
    + destruct values; [reflexivity | discriminate].
  - destruct p as [a|e].
    + destruct (Promise_all ps) as [l|e'] eqn:P.
      * split; intros H.
        -- inversion H; subst. simpl. f_equal. now apply IH.
        -- destruct values as [|v values]; [discriminate |].
           inversion H; subst. f_equal. f_equal.
           assert (Ok l = Ok values) as E by now apply IH.
           now inversion E.
      * split; [discriminate |].
        intros H. destruct values as [|v values]; [discriminate |].
        inversion H; subst.
        assert (@Throw (list A) e' = Ok values) by now apply IH.
        discriminate.
    + split; [discriminate |]. destruct values; discriminate.
Qed.

(** A run that gets as far as the updates issues one call per element of
    [eventsToUpdate] and ends as [Promise.all] of their outcomes does. *)
Lemma updateEvents_outcome (events : Batch) (reqHost : string) (st : St W)
  (calendar : CalendarClient W) (eventsToUpdate : list ParsedEvent.t)
  (st2 : St W) :
  reachesUpdates ext Date_toString events reqHost st calendar eventsToUpdate st2 ->
  exists tr w,
    updateEvents ext Date_toString events reqHost st
    = (match Promise_all (updateOutcomes tr) with
       | Ok updated => Ok (pairIds (workingSet events) updated)
       | Throw e => Throw e
       end,
       {| world := w; trace := trace st2 ++ tr |})
    /\ Forall2 (fun e eff => exists r, eff = EventsUpdate (updateParams e) r)
         eventsToUpdate tr.
Proof.
  intros (parsed & st1 & Hparse & Hcal & Hloop).
  destruct (updateGcalPromises_run calendar eventsToUpdate st2)
    as (outcomes & tr & w & Hrun & Hcalls & Hout).
  exists tr, w. split; [| assumption].
  unfold updateEvents. fold (workingSet events).
  unfold bind at 1. unfold lift at 1. rewrite Hparse.
  unfold bind at 1. rewrite Hcal.
  unfold bind at 1. rewrite Hloop.
  unfold bind at 1. rewrite Hrun.
  unfold bind, lift, ret. rewrite Hout.
  destruct (Promise_all outcomes); reflexivity.
Qed.

(** The loop of a run that gets as far as the updates. *)
Lemma reachesUpdates_loop (events : Batch) (reqHost : string) (st : St W)
  (calendar : CalendarClient W) (eventsToUpdate : list ParsedEvent.t)
  (st2 : St W) :
  reachesUpdates ext Date_toString events reqHost st calendar eventsToUpdate st2 ->
  exists parsedEvents loopTrace,
    parseEvents Date_toString (workingSet events) reqHost = Ok parsedEvents
    /\ trace st2 = trace st ++ GetCalendar None :: loopTrace
    /\ Prefilled parsedEvents loopTrace eventsToUpdate.
Proof.
  intros (parsed & st1 & Hparse & Hcal & Hloop).
  rewrite prefill_loop_forEach in Hloop.
  apply forEach_prefill_Prefilled in Hloop as (out & tr & E & Htr & HP).
  simpl in E; subst out.
  exists parsed, tr. repeat split; try assumption.
  unfold await_getCalendar, bind, invoke, await, lift in Hcal.
  destruct (getCalendar ext (world st)) as [[c|e] w]; simpl in Hcal;
    inversion Hcal; subst; clear Hcal.
  simpl in Htr. rewrite Htr. now rewrite <- app_assoc.
Qed.

Lemma Forall2_In_l {A B} (R : A -> B -> Prop) (xs : list A) (ys : list B) :
  Forall2 R xs ys -> forall x, In x xs -> exists y, In y ys /\ R x y.
Proof.
  induction 1 as [|a b xs ys Hab _ IH]; intros x Hin; simpl in Hin.
  - contradiction.
  - destruct Hin as [->|Hin].
    + exists b. simpl. auto.
    + destruct (IH x Hin) as (y & Hy & Hxy). exists y. simpl. auto.
Qed.

(** The events of the [deleted] list enter the working set flagged as
    deleted, with their title and links as they were. *)
Lemma deleted_events_are_marked (events : Batch) (e : FullEvent.t) :
  In e (deleted events) ->
  In (markDeleted e) (workingSet events)
  /\ FullEvent.isDeleted (markDeleted e) = true
  /\ FullEvent.title (markDeleted e) = FullEvent.title e
  /\ FullEvent.gCalEventId (markDeleted e) = FullEvent.gCalEventId e
  /\ FullEvent.gCalId (markDeleted e) = FullEvent.gCalId e.
Proof.
  intros Hin. repeat split. unfold workingSet.
  apply in_or_app. right. now apply in_map.
Qed.


(** What the prefill loop of a run that gets as far as the updates has
    done, in terms of the working set: one error line for every event that
    is not [linked], one fetch for every event that is [fetchedFor], and
    the [linked] events, in order, in [eventsToUpdate]. *)
Lemma reachesUpdates_sent_and_logged (events : Batch) (reqHost : string)
  (st : St W) (calendar : CalendarClient W)
  (eventsToUpdate : list ParsedEvent.t) (st2 : St W) :
  reachesUpdates ext Date_toString events reqHost st calendar eventsToUpdate st2 ->
  exists loopTrace,
    trace st2 = trace st ++ GetCalendar None :: loopTrace
    /\ errorLines loopTrace
       = map (fun _ => Text "gCalId not defined for the event")
           (filter (fun e => negb (linked e)) (workingSet events))
    /\ fetchCalls loopTrace
       = map (fun e => (narrowed (FullEvent.gCalId e),
                        narrowed (FullEvent.gCalEventId e)))
           (filter fetchedFor (workingSet events))
    /\ map ParsedEvent.databaseId eventsToUpdate
       = map FullEvent.id (filter linked (workingSet events)).
Proof.
  intros Hreach.
  destruct (reachesUpdates_loop Hreach) as (parsed & loopTrace & Hparse & Htr & HP).
  pose proof (parseEvents_each _ _ Hparse) as Heach.
  assert (Forall (fun pe => truthy (ParsedEvent.gCalEventId pe) = true) parsed)
    as Hall.
  { clear - Heach. induction Heach as [|e pe ws parsed Hp _ IH]; constructor; auto.
    destruct Hp as (R & _ & _ & _ & -> & _). exact R. }
  destruct (Prefilled_sent_and_logged HP Hall) as [Hsent Hlog].
  pose proof (Prefilled_fetchCalls HP Hall) as Hfetch.
  exists loopTrace. split; [assumption |]. split; [| split].
  - rewrite Hlog. apply filter_map_Forall2 with (1 := Heach).
    intros e pe (_ & _ & Hdel & Hcal & _). unfold linked.
    now rewrite Hdel, Hcal.
  - rewrite Hfetch. apply filter_map_Forall2 with (1 := Heach).
    intros e pe (_ & _ & Hdel & Hcal & Hrem & _). unfold fetchedFor.
    now rewrite Hdel, Hcal, Hrem.
  - rewrite Hsent. apply filter_map_Forall2 with (1 := Heach).
    intros e pe (_ & Hid & Hdel & Hcal & _). unfold linked.
    now rewrite Hdel, Hcal, Hid.
Qed.

(** ** The properties of the synchroniser *)

(** C3.  When some event of the batch, updated or deleted, has no remote
    event id, [updateEvents] rejects with the error thrown by [parseEvents]
    and leaves the state as it found it: no adapter operation
    ([getCalendar], [getEvent], [events.update]) has been invoked. *)
Theorem missing_remote_id_rejects_before_any_adapter_call :
  forall (events : Batch) (reqHost : string) (st : St W) (e : FullEvent.t),
    In e (updated events ++ deleted events) ->
    truthy (FullEvent.gCalEventId e) = false ->
    updateEvents ext Date_toString events reqHost st = (Throw thrownByParse, st).
Proof.
  intros events reqHost st e Hin Hfalsy.
  assert (exists e', In e' (workingSet events)
                     /\ truthy (FullEvent.gCalEventId e') = false)
    as (e' & Hin' & Hfalsy').
  { apply in_app_or in Hin as [Hin|Hin].
    - exists e. split; [| assumption]. unfold workingSet. apply in_or_app. now left.
    - exists (markDeleted e). split; [| assumption].
      now apply deleted_events_are_marked. }
  unfold updateEvents. fold (workingSet events).
  unfold bind at 1. unfold lift at 1.
  now rewrite (parseEvents_missing_id (workingSet events) reqHost e' Hin' Hfalsy').
Qed.

(** C8.  Every description built by [parseEvents] ends with the link
    [{protocol}://{host}/rsvp/{hash}], where the protocol is http exactly
    when the host contains "localhost" and https otherwise; for the host
    "example.com" the link is [https://example.com/rsvp/<hash>] and for
    "localhost:3000" it is [http://localhost:3000/rsvp/<hash>]. *)
Theorem description_ends_with_rsvp_link :
  forall (events : list FullEvent.t) (reqHost : string)
         (parsed : list ParsedEvent.t),
    parseEvents Date_toString events reqHost = Ok parsed ->
    Forall2
      (fun event p =>
         (exists protocol,
             EndsWith (ParsedEvent.description p)
               (rsvpLink protocol reqHost (FullEvent.hash event))
             /\ ((protocol = "http" /\ Contains reqHost "localhost")
                 \/ (protocol = "https" /\ ~ Contains reqHost "localhost")))
         /\ (reqHost = "example.com" ->
             EndsWith (ParsedEvent.description p)
               ("https://example.com/rsvp/" ++ FullEvent.hash event)%string)
         /\ (reqHost = "localhost:3000" ->
             EndsWith (ParsedEvent.description p)
               ("http://localhost:3000/rsvp/" ++ FullEvent.hash event)%string))
      events parsed.
Proof.
  intros events reqHost parsed H.
  apply parseEvents_each in H.
  apply Forall2_impl with (2 := H). clear H.
  intros event p (_ & _ & _ & _ & _ & _ & _ & Hlink).
  split; [| split].
  - destruct (includes reqHost "localhost") eqn:I.
    + exists "http". split; [assumption |]. left. split; [reflexivity |].
      now apply includes_Contains.
    + exists "https". split; [assumption |]. right. split; [reflexivity |].
      intros C. apply includes_Contains in C. congruence.
  - intros ->. exact Hlink.
  - intros ->. exact Hlink.
Qed.


(** The turn of the prefill loop for a linked, non-deleted event whose
    fetch resolves: the payload pushed is the parsed one with the fetched
    attendees, or with the empty list when the remote event has none. *)
Lemma prefill_turn_fetched (parsed : list ParsedEvent.t) (k : nat)
  (pe : ParsedEvent.t) (calendarId gCalEventId : string)
  (remote : RemoteEvent.t) (w : W) (turns : nat)
  (eventsToUpdate : list ParsedEvent.t) (st : St W) :
  nth_error parsed k = Some pe ->
  ParsedEvent.isDeleted pe = false ->
  ParsedEvent.gCalEventId pe = Some gCalEventId -> nonEmpty gCalEventId = true ->
  ParsedEvent.gCalId pe = Some calendarId -> nonEmpty calendarId = true ->
  getEvent ext calendarId gCalEventId (world st) = (Ok remote, w) ->
  forRange (S turns) k (prefillTurn ext parsed) eventsToUpdate st
  = forRange turns (S k) (prefillTurn ext parsed)
      (eventsToUpdate
         ++ [ParsedEvent.withAttendees pe
               (match RemoteEvent.attendees remote with
                | Some existing => existing
                | None => []
                end)])
      (called st w (GetEvent calendarId gCalEventId (Ok remote))).
Proof.
  intros Hk D R Rne C Cne G.
  rewrite forRange_turn, (prefillTurn_step parsed k eventsToUpdate st Hk).
  unfold prefillStep. rewrite D, R, C. simpl. rewrite Rne, Cne. simpl.
  unfold await_getEvent, bind, invoke, await, lift. rewrite G. reflexivity.
Qed.


(** C6.  In a run that gets as far as the updates, the payloads sent for
    non-deleted events are, in order, the ones the attendee fetches were
    made for, and each carries the attendee list its fetch resolved to,
    unchanged, or the empty list when the remote event had none. *)
Theorem fetched_attendees_are_sent_unchanged :
  forall (events : Batch) (reqHost : string) (st : St W)
         (calendar : CalendarClient W) (eventsToUpdate : list ParsedEvent.t)
         (st2 : St W),
    reachesUpdates ext Date_toString events reqHost st calendar eventsToUpdate st2 ->
    exists loopTrace updateTrace,
      trace st2 = trace st ++ GetCalendar None :: loopTrace
      /\ trace (snd (updateEvents ext Date_toString events reqHost st))
         = trace st2 ++ updateTrace
      /\ Forall2 carries (fetched loopTrace)
           (filter (fun sent => negb (ParsedEvent.isDeleted sent))
              (map requestBody (updateCalls updateTrace))).
Proof.
  intros events reqHost st calendar toUpdate st2 Hreach.
  destruct (reachesUpdates_loop Hreach) as (parsed & loopTrace & _ & Hloop & HP).
  destruct (updateEvents_outcome Hreach) as (tr & w & Hrun & Hcalls).
  exists loopTrace, tr. rewrite Hrun. simpl.
  split; [assumption |]. split; [reflexivity |].
  apply issued_updateCalls in Hcalls as (-> & _).
  rewrite map_map. simpl. rewrite map_id.
  now apply Prefilled_carries with (parsedEvents := parsed).
Qed.

Lemma mapi_from_length {A B} (f : A -> nat -> B) (xs : list A) (key : nat) :
  length (mapi_from key f xs) = length xs.
Proof. revert key; induction xs; simpl; auto. Qed.

(** C9.  In a run that gets as far as the updates, one call is issued for
    every element of [eventsToUpdate], whatever the outcome of the calls
    before it; if any of them rejects the run rejects, and a run that
    returns a list returns one pair per call, all of which resolved. *)
Theorem rejected_update_rejects_the_batch :
  forall (events : Batch) (reqHost : string) (st : St W)
         (calendar : CalendarClient W) (eventsToUpdate : list ParsedEvent.t)
         (st2 : St W),
    reachesUpdates ext Date_toString events reqHost st calendar eventsToUpdate st2 ->
    exists tr outcome st3,
      updateEvents ext Date_toString events reqHost st = (outcome, st3)
      /\ trace st3 = trace st2 ++ tr
      /\ updateCalls tr = map updateParams eventsToUpdate
      /\ length tr = length eventsToUpdate
      /\ (forall e, In (Throw e) (updateOutcomes tr) ->
                    exists e', outcome = Throw e')
      /\ (forall ids, outcome = Ok ids ->
                      exists updated,
                        updateOutcomes tr = map Ok updated
                        /\ length ids = length eventsToUpdate).
Proof.
  intros events reqHost st calendar toUpdate st2 Hreach.
  destruct (updateEvents_outcome Hreach) as (tr & w & Hrun & Hcalls).
  apply issued_updateCalls in Hcalls as (Hparams & Hlen & _).
  eexists tr, _, _. split; [exact Hrun |]. simpl.
  repeat split; try assumption.
  - intros e Hin. destruct (Promise_all_rejects _ e Hin) as [e' ->].
    now exists e'.
  - intros ids Hids.
    destruct (Promise_all (updateOutcomes tr)) as [updated|] eqn:P;
      [| discriminate].
    inversion Hids; subst ids. exists updated.
    apply Promise_all_resolves in P. split; [assumption |].
    unfold pairIds, mapi. rewrite mapi_from_length.
    rewrite <- Hlen.
    assert (length (updateOutcomes tr) = length (updateCalls tr)) as L.
    { clear. induction tr as [|[] tr IH]; simpl; auto. }
    rewrite P, Hparams, !length_map in L. rewrite Hlen. exact L.
Qed.

(** C10.  In a run that gets as far as the updates, every deleted event of
    the working set that has no remote calendar id is sent to the provider
    all the same, whereas every payload sent for a non-deleted event has a
    remote calendar id: the non-deleted events without one were skipped. *)
Theorem deleted_event_without_calendar_id_is_updated :
  forall (events : Batch) (reqHost : string) (st : St W)
         (calendar : CalendarClient W) (eventsToUpdate : list ParsedEvent.t)
         (st2 : St W),
    reachesUpdates ext Date_toString events reqHost st calendar eventsToUpdate st2 ->
    exists tr,
      trace (snd (updateEvents ext Date_toString events reqHost st))
      = trace st2 ++ tr
      /\ (forall e,
             In e (workingSet events) ->
             FullEvent.isDeleted e = true ->
             truthy (FullEvent.gCalId e) = false ->
             exists pe r,
               ParsedEvent.databaseId pe = FullEvent.id e
               /\ ParsedEvent.gCalEventId pe = FullEvent.gCalEventId e
               /\ ParsedEvent.gCalId pe = FullEvent.gCalId e
               /\ ParsedEvent.isDeleted pe = true
               /\ In (EventsUpdate (updateParams pe) r) tr)
      /\ (forall params,
             In params (updateCalls tr) ->
             ParsedEvent.isDeleted (requestBody params) = false ->
             truthy (ParsedEvent.gCalId (requestBody params)) = true).
Proof.
  intros events reqHost st calendar toUpdate st2 Hreach.
  destruct (reachesUpdates_loop Hreach) as (parsed & loopTrace & Hparse & _ & HP).
  destruct (updateEvents_outcome Hreach) as (tr & w & Hrun & Hcalls).
  exists tr. rewrite Hrun. simpl. split; [reflexivity |]. split.
  - intros e Hin D _.
    apply In_nth_error in Hin as [k Hk].
    pose proof (parseEvents_each _ _ Hparse) as Heach.
    destruct (Forall2_nth_error_l Heach k Hk)
      as (pe & Hpe & _ & Hid & Hdel & Hcal & Hrem & _).
    rewrite D in Hdel.
    pose proof (Prefilled_keeps_deleted HP pe (nth_error_In _ _ Hpe) Hdel) as Hout.
    destruct (Forall2_In_l Hcalls pe Hout) as (eff & Heff & r & ->).
    exists pe, r. auto.
  - intros params Hin D.
    apply issued_updateCalls in Hcalls as (Hparams & _).
    rewrite Hparams in Hin. apply in_map_iff in Hin as (sent & <- & Hsent).
    pose proof (Prefilled_sent_are_linked HP) as Hlinked.
    rewrite Forall_forall in Hlinked.
    destruct (Hlinked sent Hsent) as [Hd|Hc]; [simpl in D; congruence | exact Hc].
Qed.

(** ** When the returned pairs are right *)

Lemma updateOutcomes_length (tr : list Effect) :
  length (updateOutcomes tr) = length (updateCalls tr).
Proof. induction tr as [|[] tr IH]; simpl; auto. Qed.

Lemma Forall2_compose {A B C} (R1 : A -> B -> Prop) (R2 : B -> C -> Prop)
  (R : A -> C -> Prop) (xs : list A) (ys : list B) :
  (forall x y z, R1 x y -> R2 y z -> R x z) ->
  Forall2 R1 xs ys -> forall zs, Forall2 R2 ys zs -> Forall2 R xs zs.
Proof.
  intros HR. induction 1 as [|x y xs ys Hxy _ IH]; intros zs Hz;
    inversion Hz; subst; constructor; eauto.
Qed.

Lemma pairIds_paired (allEvents : list FullEvent.t) :
  forall (ws : list FullEvent.t) (eventsToUpdate : list ParsedEvent.t),
    Forall2 (fun e sent => ParsedEvent.databaseId sent = FullEvent.id e)
      ws eventsToUpdate ->
    forall (updated : list UpdateResponse) (key : nat),
      length updated = length eventsToUpdate ->
      (forall i, nth_error allEvents (key + i) = nth_error ws i) ->
      Forall2 pairedWith
        (mapi_from key
           (fun i key =>
              {| calendarEventId := RemoteEvent.id (data i);
                 databaseEventId :=
                   option_map FullEvent.id (nth_error allEvents key) |})
           updated)
        (combine (map updateParams eventsToUpdate) (map Ok updated)).
Proof.
  induction 1 as [|e sent ws toUpdate Hid _ IH]; intros updated key Hlen Hnth;
    destruct updated as [|u updated]; simpl in Hlen; try discriminate.
  - constructor.
  - simpl. constructor.
    + split; simpl; [reflexivity |].
      specialize (Hnth 0). rewrite Nat.add_0_r in Hnth.
      rewrite Hnth. simpl. now rewrite Hid.
    + apply IH; [lia |].
      intros i. specialize (Hnth (S i)).
      rewrite Nat.add_succ_r in Hnth. exact Hnth.
Qed.

(** The pairs [updateEvents] returns are right whenever the prefill loop
    skipped nothing, that is when every event of the working set is
    deleted or has a calendar id. *)
Lemma pairing_holds_when_nothing_is_skipped (events : Batch) (reqHost : string)
  (st : St W) (calendar : CalendarClient W)
  (eventsToUpdate : list ParsedEvent.t) (st2 : St W) :
  reachesUpdates ext Date_toString events reqHost st calendar eventsToUpdate st2 ->
  (forall e, In e (workingSet events) -> linked e = true) ->
  forall (ids : list IdPair) (st3 : St W),
    updateEvents ext Date_toString events reqHost st = (Ok ids, st3) ->
    exists tr,
      trace st3 = trace st2 ++ tr
      /\ Forall2 pairedWith ids
           (combine (updateCalls tr) (updateOutcomes tr)).
Proof.
  intros Hreach Hlinked ids st3 Hok.
  destruct (reachesUpdates_loop Hreach) as (parsed & loopTrace & Hparse & _ & HP).
  pose proof (parseEvents_each _ _ Hparse) as Heach.
  assert (Forall (fun pe => truthy (ParsedEvent.gCalEventId pe) = true
                            /\ (ParsedEvent.isDeleted pe
                                || truthy (ParsedEvent.gCalId pe)) = true)
            parsed) as Hall.
  { clear - Heach Hlinked.
    induction Heach as [|e pe ws parsed Hp _ IH]; constructor.
    - destruct Hp as (R & _ & Hdel & Hcal & Hrem & _).
      rewrite Hrem, Hdel, Hcal. split; [exact R |].
      apply (Hlinked e). now left.
    - apply IH. intros e' Hin. apply Hlinked. now right. }
  pose proof (Prefilled_all_sent HP Hall) as Hsent.
  assert (Forall2 (fun e sent => ParsedEvent.databaseId sent = FullEvent.id e)
            (workingSet events) eventsToUpdate) as Hids.
  { eapply Forall2_compose; [| exact Heach | exact Hsent].
    intros e pe sent (_ & Hid & _) Hs. simpl in Hs. congruence. }
  destruct (updateEvents_outcome Hreach) as (tr & w & Hrun & Hcalls).
  rewrite Hrun in Hok.
  destruct (Promise_all (updateOutcomes tr)) as [updated|] eqn:P;
    [| discriminate].
  inversion Hok; subst ids st3; clear Hok.
  exists tr. split; [reflexivity |].
  apply Promise_all_resolves in P.
  apply issued_updateCalls in Hcalls as (Hparams & _).
  pose proof (updateOutcomes_length tr) as L.
  rewrite P, Hparams, !length_map in L.
  rewrite P, Hparams. unfold pairIds, mapi.
  apply pairIds_paired with (ws := workingSet events); auto.
Qed.

(** ** The properties of the invite handler *)

(** C4.  With two or more event ids, when the first lookup of the user by
    email finds nobody the marking loop ends there: the handler answers
    after that single lookup, and no RSVP update and no further lookup has
    been attempted. *)
Theorem marking_stops_when_user_is_not_found :
  forall (env : ProcessEnv) (req : NextApiRequest) (events : list string)
         (email : string) (st : St W) (w1 w2 : W),
    body_events req = Some events ->
    2 <= length events ->
    body_email req = Some email ->
    nonEmpty email = true ->
    truthy (PROD_HOST env) = true ->
    sendInvite ext events email (world st) = (Ok tt, w1) ->
    user_findUnique ext email w1 = (Ok None, w2) ->
    sendInviteHandler ext env req st
    = (Ok {| status := 200; json_data := true |},
       {| world := w2;
          trace := trace st ++ [SendInvite events email (Ok tt);
                                UserFindUnique email (Ok None)] |}).
Proof.
  intros env req events email st w1 w2 Hev Hlen Hem Hne Hhost Hsend Hfind.
  unfold sendInviteHandler. rewrite Hev, Hem.
  cbn [truthy narrowed negb]. rewrite Hne, Hhost. cbn [negb].
  destruct events as [|first [|second rest]]; simpl in Hlen; try lia.
  set (events := first :: second :: rest) in *.
  unfold bind at 1. unfold await_sendInvite, bind at 1, invoke, await, lift.
  rewrite Hsend.
  unfold bind at 1.
  change (length events) with (S (S (length rest))).
  rewrite forRange_turn.
  unfold markTurn at 1. unfold await_user_findUnique, bind, invoke, await, lift.
  cbn [world trace]. rewrite Hfind. rewrite <- app_assoc. reflexivity.
Qed.

(** As long as the lookup finds a user, the marking loop attempts the
    update of the row of every event, whichever of the updates throw,
    writes what they threw to the error console, and ends normally. *)
Lemma every_rsvp_row_is_attempted (events : list string) (email : string) :
  (forall w, exists user w', user_findUnique ext email w = (Ok (Some user), w')) ->
  forall (turns k : nat) (st : St W),
  exists tr w,
    forRange turns k (markTurn ext events email) tt st
    = (Ok tt, {| world := w; trace := trace st ++ tr |})
    /\ rsvpCalls tr = map (nth_error events) (seq k turns)
    /\ errorLines tr = map Caught (rsvpFailures tr).
Proof.
  intros Hfound. induction turns as [|turns IH]; intros k st.
  - exists [], (world st). rewrite app_nil_r. destruct st. repeat split.
  - destruct (Hfound (world st)) as (user & w1 & Hfind).
    destruct (rsvp_update ext (nth_error events k) (User.id user) w1)
      as [[[]|err] w2] eqn:Hupd.
    + destruct (IH (S k)
                  {| world := w2;
                     trace := trace st
                              ++ [UserFindUnique email (Ok (Some user));
                                  RsvpUpdate (nth_error events k) (User.id user)
                                    (Ok tt)] |})
        as (tr & w & Hrun & Hcalls & Hlines).
      exists ([UserFindUnique email (Ok (Some user));
               RsvpUpdate (nth_error events k) (User.id user) (Ok tt)] ++ tr), w.
      rewrite forRange_turn. unfold markTurn at 1.
      unfold await_user_findUnique, await_rsvp_update, tryCatch, console_error,
        bind, invoke, await, lift.
      rewrite Hfind. simpl. rewrite Hupd. simpl.
      rewrite <- !app_assoc. simpl. rewrite Hrun. cbn [trace].
      rewrite <- app_assoc.
      split; [reflexivity |]. split; [simpl; now rewrite Hcalls | exact Hlines].
    + destruct (IH (S k)
                  {| world := w2;
                     trace := trace st
                              ++ [UserFindUnique email (Ok (Some user));
                                  RsvpUpdate (nth_error events k) (User.id user)
                                    (Throw err);
                                  ConsoleError (Caught err)] |})
        as (tr & w & Hrun & Hcalls & Hlines).
      exists ([UserFindUnique email (Ok (Some user));
               RsvpUpdate (nth_error events k) (User.id user) (Throw err);
               ConsoleError (Caught err)] ++ tr), w.
      rewrite forRange_turn. unfold markTurn at 1.
      unfold await_user_findUnique, await_rsvp_update, tryCatch, console_error,
        bind, invoke, await, lift.
      rewrite Hfind. simpl. rewrite Hupd. simpl.
      rewrite <- !app_assoc. simpl. rewrite Hrun. cbn [trace].
      rewrite <- app_assoc.
      split; [reflexivity |].
      split; simpl; [now rewrite Hcalls | now rewrite Hlines].
Qed.

Lemma nth_error_seq_from {A} (before xs : list A) :
  map (nth_error (before ++ xs)) (seq (length before) (length xs)) = map Some xs.
Proof.
  revert before; induction xs as [|x xs IH]; intros before; simpl; [reflexivity |].
  rewrite nth_error_app2 by lia. rewrite Nat.sub_diag. simpl. f_equal.
  specialize (IH (before ++ [x])).
  rewrite length_app, Nat.add_1_r, <- app_assoc in IH. exact IH.
Qed.

Lemma nth_error_seq_firstn {A} (xs : list A) :
  forall (before : list A) (m : nat),
    m <= length xs ->
    map (nth_error (before ++ xs)) (seq (length before) m)
    = map Some (firstn m xs).
Proof.
  induction xs as [|x xs IH]; intros before m Hm; simpl in Hm.
  - assert (m = 0) by lia. subst. reflexivity.
  - destruct m as [|m]; [reflexivity |]. simpl.
    rewrite nth_error_app2 by lia. rewrite Nat.sub_diag. simpl. f_equal.
    specialize (IH (before ++ [x]) m).
    rewrite length_app, Nat.add_1_r, <- app_assoc in IH. apply IH. lia.
Qed.

(** What the marking loop has done when it stops, however it stops. *)
Lemma marking_loop_run (events : list string) (email : string) :
  forall (turns k : nat) (st : St W) (r : result unit) (st' : St W),
    forRange turns k (markTurn ext events email) tt st = (r, st') ->
    exists tr m,
      trace st' = trace st ++ tr
      /\ m <= turns
      /\ rsvpCalls tr = map (nth_error events) (seq k m)
      /\ errorLines tr = map Caught (rsvpFailures tr)
      /\ Forall (eq email) (lookups tr)
      /\ (length (lookups tr) = m \/ length (lookups tr) = S m)
      /\ length (lookups tr) <= turns
      /\ (r = Ok tt
          \/ exists e tr0, r = Throw e
                           /\ tr = tr0 ++ [UserFindUnique email (Throw e)]).
Proof.
  induction turns as [|turns IH]; intros k st r st' H.
  - inversion H; subst. exists [], 0. rewrite app_nil_r. simpl.
    repeat split; auto.
  - rewrite forRange_turn in H. unfold markTurn at 1 in H.
    unfold await_user_findUnique, await_rsvp_update, tryCatch, console_error,
      bind, invoke, await, lift in H.
    destruct (user_findUnique ext email (world st)) as [[[user|]|e] w1] eqn:F;
      simpl in H.
    + destruct (rsvp_update ext (nth_error events k) (User.id user) w1)
        as [[[]|err] w2] eqn:U; simpl in H;
        apply IH in H
          as (tr & m & Htr & Hm & Hcalls & Hlines & Hlook & Hcount & Hbound & Hr);
        simpl in Htr; rewrite <- !app_assoc in Htr; simpl in Htr.
      * exists (UserFindUnique email (Ok (Some user))
                :: RsvpUpdate (nth_error events k) (User.id user) (Ok tt) :: tr),
          (S m).
        simpl. rewrite Hcalls, Hlines.
        repeat split; auto; try lia.
        destruct Hr as [->|(e & tr0 & -> & ->)]; [now left | right].
        exists e, (UserFindUnique email (Ok (Some user))
                   :: RsvpUpdate (nth_error events k) (User.id user) (Ok tt)
                   :: tr0).
        auto.
      * exists (UserFindUnique email (Ok (Some user))
                :: RsvpUpdate (nth_error events k) (User.id user) (Throw err)
                :: ConsoleError (Caught err) :: tr),
          (S m).
        simpl. rewrite Hcalls, Hlines.
        repeat split; auto; try lia.
        destruct Hr as [->|(e & tr0 & -> & ->)]; [now left | right].
        exists e, (UserFindUnique email (Ok (Some user))
                   :: RsvpUpdate (nth_error events k) (User.id user) (Throw err)
                   :: ConsoleError (Caught err) :: tr0).
        auto.
    + inversion H; subst. exists [UserFindUnique email (Ok None)], 0.
      simpl. repeat split; auto; lia.
    + inversion H; subst. exists [UserFindUnique email (Throw e)], 0.
      simpl. repeat split; auto; try lia.
      right. exists e, []. auto.
Qed.

(** Why the marking loop stops: it has gone through all its turns, or a
    lookup has found nobody, or a lookup has rejected.  A rejected lookup
    is the last effect of the loop and what the loop throws. *)
Lemma marking_loop_outcome (events : list string) (email : string) :
  forall (turns k : nat) (st : St W) (r : result unit) (st' : St W),
    forRange turns k (markTurn ext events email) tt st = (r, st') ->
    exists tr m,
      trace st' = trace st ++ tr
      /\ rsvpCalls tr = map (nth_error events) (seq k m)
      /\ errorLines tr = map Caught (rsvpFailures tr)
      /\ ((m = turns /\ r = Ok tt)
          \/ (m < turns /\ r = Ok tt
              /\ exists tr0, tr = tr0 ++ [UserFindUnique email (Ok None)])
          \/ (m < turns
              /\ exists e tr0, r = Throw e
                               /\ tr = tr0 ++ [UserFindUnique email (Throw e)]))
      /\ (forall em e, In (UserFindUnique em (Throw e)) tr -> r = Throw e)
      /\ (forall evs a o, ~ In (SendInvite evs a o) tr).
Proof.
  induction turns as [|turns IH]; intros k st r st' H.
  - inversion H; subst. exists [], 0. rewrite app_nil_r. simpl.
    split; [reflexivity |]. split; [reflexivity |]. split; [reflexivity |].
    split; [left; auto |]. split; [intros em e [] | intros evs a o []].
  - rewrite forRange_turn in H. unfold markTurn at 1 in H.
    unfold await_user_findUnique, await_rsvp_update, tryCatch, console_error,
      bind, invoke, await, lift in H.
    destruct (user_findUnique ext email (world st)) as [[[user|]|e] w1] eqn:F;
      simpl in H.
    + destruct (rsvp_update ext (nth_error events k) (User.id user) w1)
        as [[[]|err] w2] eqn:U; simpl in H;
        apply IH in H
          as (tr & m & Htr & Hcalls & Hlines & Hstop & Hrej & Hnone);
        simpl in Htr; rewrite <- !app_assoc in Htr; simpl in Htr.
      * exists (UserFindUnique email (Ok (Some user))
                :: RsvpUpdate (nth_error events k) (User.id user) (Ok tt) :: tr),
          (S m).
        split; [exact Htr |]. simpl. rewrite Hcalls, Hlines.
        split; [reflexivity |]. split; [reflexivity |]. split; [| split].
        -- destruct Hstop as [[-> ->]|[(Hm & -> & tr0 & ->)|(Hm & e & tr0 & -> & ->)]].
           ++ left. auto.
           ++ right; left. split; [lia |]. split; [reflexivity |].
              exists (UserFindUnique email (Ok (Some user))
                      :: RsvpUpdate (nth_error events k) (User.id user) (Ok tt)
                      :: tr0).
              reflexivity.
           ++ right; right. split; [lia |].
              exists e, (UserFindUnique email (Ok (Some user))
                         :: RsvpUpdate (nth_error events k) (User.id user) (Ok tt)
                         :: tr0).
              auto.
        -- intros em e [Heq|[Heq|Hin]]; try discriminate. eauto.
        -- intros evs a o [Heq|[Heq|Hin]]; try discriminate.
           exact (Hnone _ _ _ Hin).
      * exists (UserFindUnique email (Ok (Some user))
                :: RsvpUpdate (nth_error events k) (User.id user) (Throw err)
                :: ConsoleError (Caught err) :: tr),
          (S m).
        split; [exact Htr |]. simpl. rewrite Hcalls, Hlines.
        split; [reflexivity |]. split; [reflexivity |]. split; [| split].
        -- destruct Hstop as [[-> ->]|[(Hm & -> & tr0 & ->)|(Hm & e & tr0 & -> & ->)]].
           ++ left. auto.
           ++ right; left. split; [lia |]. split; [reflexivity |].
              exists (UserFindUnique email (Ok (Some user))
                      :: RsvpUpdate (nth_error events k) (User.id user) (Throw err)
                      :: ConsoleError (Caught err) :: tr0).
              reflexivity.
           ++ right; right. split; [lia |].
              exists e, (UserFindUnique email (Ok (Some user))
                         :: RsvpUpdate (nth_error events k) (User.id user)
                              (Throw err)
                         :: ConsoleError (Caught err) :: tr0).
              auto.
        -- intros em e [Heq|[Heq|[Heq|Hin]]]; try discriminate. eauto.
        -- intros evs a o [Heq|[Heq|[Heq|Hin]]]; try discriminate.
           exact (Hnone _ _ _ Hin).
    + inversion H; subst. exists [UserFindUnique email (Ok None)], 0.
      simpl. split; [reflexivity |]. split; [reflexivity |].
      split; [reflexivity |]. split; [| split].
      * right; left. split; [lia |]. split; [reflexivity |]. now exists [].
      * intros em e [Heq|[]]. discriminate.
      * intros evs a o [Heq|[]]. discriminate.
    + inversion H; subst. exists [UserFindUnique email (Throw e)], 0.
      simpl. split; [reflexivity |]. split; [reflexivity |].
      split; [reflexivity |]. split; [| split].
      * right; right. split; [lia |]. exists e, []. auto.
      * intros em e' [Heq|[]]. now inversion Heq.
      * intros evs a o [Heq|[]]. discriminate.
Qed.

Lemma sendInviteHandler_valid (env : ProcessEnv) (req : NextApiRequest)
  (events : list string) (email : string) (st : St W) :
  validRequest env req events email ->
  sendInviteHandler ext env req st
  = (await_sendInvite ext events email ;;;
     forRange (length events) 0 (markTurn ext events email) tt ;;;
     ret {| status := 200; json_data := true |}) st.
Proof.
  intros (Hev & Hem & Hne & Hhost).
  unfold sendInviteHandler. rewrite Hev, Hem.
  cbn [truthy narrowed negb]. rewrite Hne, Hhost. reflexivity.
Qed.

Lemma sendInviteHandler_after_sendInvite (env : ProcessEnv)
  (req : NextApiRequest) (events : list string) (email : string) (st : St W)
  (w : W) (r : result unit) (st' : St W) :
  validRequest env req events email ->
  sendInvite ext events email (world st) = (Ok tt, w) ->
  forRange (length events) 0 (markTurn ext events email) tt
    {| world := w; trace := trace st ++ [SendInvite events email (Ok tt)] |}
  = (r, st') ->
  sendInviteHandler ext env req st
  = (match r with
     | Ok _ => Ok {| status := 200; json_data := true |}
     | Throw e => Throw e
     end, st').
Proof.
  intros Hvalid Hsend Hloop.
  rewrite (sendInviteHandler_valid st Hvalid).
  unfold bind at 1. unfold await_sendInvite, bind at 1, invoke, await, lift.
  rewrite Hsend. unfold bind at 1. rewrite Hloop.
  destruct r; reflexivity.
Qed.

Lemma sendInviteHandler_rejected (env : ProcessEnv) (req : NextApiRequest)
  (events : list string) (email : string) (st : St W) (e : Thrown) (w : W) :
  validRequest env req events email ->
  sendInvite ext events email (world st) = (Throw e, w) ->
  sendInviteHandler ext env req st
  = (Throw e,
     {| world := w; trace := trace st ++ [SendInvite events email (Throw e)] |}).
Proof.
  intros Hvalid Hsend.
  rewrite (sendInviteHandler_valid st Hvalid).
  unfold bind at 1. unfold await_sendInvite, bind at 1, invoke, await, lift.
  now rewrite Hsend.
Qed.

(** C5.  In the invite handler, a thrown update of an RSVP row is caught
    and logged, never propagated, and the events after it are still
    processed.  Turn by turn: when the user is found and the update throws,
    the thrown value is written to the error console and the loop goes on
    with the next turn.  For the handler as a whole, on a valid request
    whose invite has been sent: the handler attempts the update of the rows
    of the first [m] events, everything on the error console is what those
    updates threw, and [m] falls short of the whole list only when a lookup
    of the user found nobody or rejected; a thrown update never stops the
    loop nor fails the request.  So, as long as the lookup finds a user,
    the handler answers 200 after attempting the update of the row of every
    event of the list, whichever updates throw. *)
Theorem failed_rsvp_update_is_logged_and_loop_goes_on :
  forall (events : list string) (email : string),
    (forall (k turns : nat) (user : User.t) (err : Thrown) (st : St W)
            (w1 w2 : W),
        user_findUnique ext email (world st) = (Ok (Some user), w1) ->
        rsvp_update ext (nth_error events k) (User.id user) w1 = (Throw err, w2) ->
        forRange (S turns) k (markTurn ext events email) tt st
        = forRange turns (S k) (markTurn ext events email) tt
            {| world := w2;
               trace := trace st
                        ++ [UserFindUnique email (Ok (Some user));
                            RsvpUpdate (nth_error events k) (User.id user)
                              (Throw err);
                            ConsoleError (Caught err)] |})
    /\ ((forall w, exists user w',
             user_findUnique ext email w = (Ok (Some user), w')) ->
        forall st : St W,
        exists tr w,
          forRange (length events) 0 (markTurn ext events email) tt st
          = (Ok tt, {| world := w; trace := trace st ++ tr |})
          /\ rsvpCalls tr = map Some events
          /\ errorLines tr = map Caught (rsvpFailures tr))
    /\ (forall (env : ProcessEnv) (req : NextApiRequest) (st : St W) (w0 : W),
           validRequest env req events email ->
           sendInvite ext events email (world st) = (Ok tt, w0) ->
           exists tr m,
             trace (snd (sendInviteHandler ext env req st))
             = trace st ++ SendInvite events email (Ok tt) :: tr
             /\ rsvpCalls tr = map Some (firstn m events)
             /\ errorLines tr = map Caught (rsvpFailures tr)
             /\ ((m = length events
                  /\ fst (sendInviteHandler ext env req st)
                     = Ok {| status := 200; json_data := true |})
                 \/ (m < length events
                     /\ fst (sendInviteHandler ext env req st)
                        = Ok {| status := 200; json_data := true |}
                     /\ exists tr0,
                         tr = tr0 ++ [UserFindUnique email (Ok None)])
                 \/ (m < length events
                     /\ exists e tr0,
                         fst (sendInviteHandler ext env req st) = Throw e
                         /\ tr = tr0 ++ [UserFindUnique email (Throw e)])))
    /\ (forall (env : ProcessEnv) (req : NextApiRequest) (st : St W) (w0 : W),
           validRequest env req events email ->
           sendInvite ext events email (world st) = (Ok tt, w0) ->
           (forall w, exists user w',
                user_findUnique ext email w = (Ok (Some user), w')) ->
           exists tr w,
             sendInviteHandler ext env req st
             = (Ok {| status := 200; json_data := true |},
                {| world := w;
                   trace := trace st ++ SendInvite events email (Ok tt) :: tr |})
             /\ rsvpCalls tr = map Some events
             /\ errorLines tr = map Caught (rsvpFailures tr)).
Proof.
  intros events email. split; [| split; [| split]].
  - intros k turns user err st w1 w2 Hfind Hupd.
    rewrite forRange_turn.
    unfold markTurn at 1.
    unfold await_user_findUnique, await_rsvp_update, tryCatch, console_error,
      bind, invoke, await, lift.
    rewrite Hfind. simpl. rewrite Hupd. simpl.
    rewrite <- !app_assoc. reflexivity.
  - intros Hfound st.
    destruct (@every_rsvp_row_is_attempted events email Hfound (length events) 0 st)
      as (tr & w & Hrun & Hcalls & Hlines).
    exists tr, w. split; [assumption |]. split; [| assumption].
    rewrite Hcalls. exact (nth_error_seq_from [] events).
  - intros env req st w0 Hvalid Hsend.
    destruct (forRange (length events) 0 (markTurn ext events email) tt
                {| world := w0;
                   trace := trace st ++ [SendInvite events email (Ok tt)] |})
      as [r st'] eqn:L.
    rewrite (@sendInviteHandler_after_sendInvite env req events email st w0 r st'
               Hvalid Hsend L).
    apply marking_loop_outcome in L
      as (tr & m & Htr & Hcalls & Hlines & Hstop & _ & _).
    simpl in Htr. rewrite <- app_assoc in Htr. simpl in Htr.
    assert (m <= length events) as Hm by (destruct Hstop as [[-> _]|[[? _]|[? _]]]; lia).
    exists tr, m. cbn [fst snd].
    split; [exact Htr |].
    split; [rewrite Hcalls; exact (nth_error_seq_firstn events [] Hm) |].
    split; [exact Hlines |].
    destruct Hstop as [[-> ->]|[(Hlt & -> & tr0 & ->)|(Hlt & e & tr0 & -> & ->)]].
    + left. auto.
    + right; left. split; [exact Hlt |]. split; [reflexivity |]. now exists tr0.
    + right; right. split; [exact Hlt |]. exists e, tr0. auto.
  - intros env req st w0 Hvalid Hsend Hfound.
    destruct (@every_rsvp_row_is_attempted events email Hfound (length events) 0
                {| world := w0;
                   trace := trace st ++ [SendInvite events email (Ok tt)] |})
      as (tr & w & Hrun & Hcalls & Hlines).
    exists tr, w.
    rewrite (@sendInviteHandler_after_sendInvite env req events email st w0 _ _
               Hvalid Hsend Hrun).
    cbn [trace]. rewrite <- app_assoc.
    split; [reflexivity |]. split; [| assumption].
    rewrite Hcalls. exact (nth_error_seq_from [] events).
Qed.

End Properties.

(** ** The pairing of the returned ids *)

(** C1 fails on the code.  With the working set [[eventA; eventB]], where
    [eventA] has no calendar id and is skipped, the only provider call is
    the one made for [eventB]; the pair returned for it holds the remote id
    of [eventB] next to the database id of [eventA], because the pairs are
    read from [allEvents] at the index of the call. *)
Theorem pairing_is_shifted_after_a_skipped_event :
  let run := updateEvents sampleExt sampleToString skippingBatch "example.com" st0 in
  let calls := combine (updateCalls (trace (snd run)))
                 (updateOutcomes (trace (snd run))) in
  fst run = Ok [{| calendarEventId := Some "remote-B";
                   databaseEventId := Some "A" |}]
  /\ map (fun call => ParsedEvent.databaseId (requestBody (fst call))) calls = ["B"]
  /\ ~ (exists ids, fst run = Ok ids /\ Forall2 pairedWith ids calls).
Proof.
  cbv zeta. split; [vm_compute; reflexivity |]. split; [vm_compute; reflexivity |].
  intros (ids & Hids & Hpaired).
  vm_compute in Hids. inversion Hids; subst ids; clear Hids.
  vm_compute in Hpaired.
  inversion Hpaired as [|pair call ids calls [_ Hdb] _]; subst.
  discriminate Hdb.
Qed.


(** ** The properties at the sample deployment *)

Lemma sample_reachesUpdates (events : Batch) (calendar : CalendarClient nat)
  (eventsToUpdate : list ParsedEvent.t) (st2 : St nat) :
  (parsed <- lift (parseEvents sampleToString (workingSet events) "example.com") ;;
   calendar <- await_getCalendar sampleExt ;;
   eventsToUpdate <- forRange (length parsed) 0 (prefillTurn sampleExt parsed) [] ;;
   ret (calendar, eventsToUpdate)) st0
  = (Ok (calendar, eventsToUpdate), st2) ->
  reachesUpdates sampleExt sampleToString events "example.com" st0
    calendar eventsToUpdate st2.
Proof.
  unfold bind, lift, ret. intros H.
  destruct (parseEvents sampleToString (workingSet events) "example.com")
    as [parsed|] eqn:P; [| discriminate].
  destruct (await_getCalendar sampleExt st0) as [[c|] st1] eqn:C; [| discriminate].
  destruct (forRange (length parsed) 0 (prefillTurn sampleExt parsed) [] st1)
    as [[l|] st2'] eqn:L; [| discriminate].
  inversion H; subst. exists parsed, st1. auto.
Defined.

Lemma missing_remote_id_rejects_witness :
  updateEvents sampleExt sampleToString unlinkedBatch "example.com" st0
  = (Throw thrownByParse, st0).
Proof.
  apply (@missing_remote_id_rejects_before_any_adapter_call
           nat sampleExt sampleToString unlinkedBatch "example.com" st0 eventC).
  - simpl. left. reflexivity.
  - reflexivity.
Defined.

Lemma description_ends_with_rsvp_link_witness :
  exists parsed,
    parseEvents sampleToString [eventB] "example.com" = Ok parsed
    /\ Forall2
         (fun event p =>
            EndsWith (ParsedEvent.description p)
              ("https://example.com/rsvp/" ++ FullEvent.hash event)%string)
         [eventB] parsed.
Proof.
  eexists. split; [vm_compute; reflexivity |].
  eapply Forall2_impl;
    [| apply (@description_ends_with_rsvp_link sampleToString [eventB]
                 "example.com");
       vm_compute; reflexivity].
  intros event p (_ & H & _). now apply H.
Defined.



Lemma fetched_attendees_are_sent_unchanged_witness :
  exists loopTrace updateTrace,
    trace (snd (updateEvents sampleExt sampleToString cancellingBatch
                  "example.com" st0))
    = GetCalendar None :: loopTrace ++ updateTrace
    /\ Forall2 carries (fetched loopTrace)
         (filter (fun sent => negb (ParsedEvent.isDeleted sent))
            (map requestBody (updateCalls updateTrace)))
    /\ map (fun got => RemoteEvent.attendees (snd got)) (fetched loopTrace)
       = [Some [alice]].
Proof.
  destruct (@fetched_attendees_are_sent_unchanged nat _ _ _ _ _ _ _ _
              (sample_reachesUpdates cancellingBatch
                 ltac:(vm_compute; reflexivity)))
    as (loopTrace & updateTrace & Hloop & Hupd & Hcarries).
  exists loopTrace, updateTrace.
  rewrite Hupd, Hloop. split; [now rewrite <- app_assoc |].
  split; [exact Hcarries |].
  simpl in Hloop. inversion Hloop. reflexivity.
Defined.

Lemma rejected_update_rejects_the_batch_witness :
  exists e,
    fst (updateEvents sampleExt sampleToString rejectedBatch "example.com" st0)
    = Throw e
    /\ length (updateCalls
                 (trace (snd (updateEvents sampleExt sampleToString rejectedBatch
                                "example.com" st0))))
       = 3.
Proof.
  destruct (@rejected_update_rejects_the_batch nat _ _ _ _ _ _ _ _
              (sample_reachesUpdates rejectedBatch
                 ltac:(vm_compute; reflexivity)))
    as (tr & outcome & st3 & Hrun & Htr & Hcalls & Hlen & Hrej & _).
  destruct (Hrej (Failure "410 Gone")) as [e He].
  - assert (st3 = snd (updateEvents sampleExt sampleToString rejectedBatch
                         "example.com" st0)) as E by now rewrite Hrun.
    rewrite E in Htr. vm_compute in Htr. inversion Htr. simpl. auto.
  - exists e. split; [rewrite Hrun; exact He | vm_compute; reflexivity].
Defined.

Lemma deleted_event_without_calendar_id_is_updated_witness :
  exists pe r,
    ParsedEvent.databaseId pe = "A"
    /\ ParsedEvent.gCalId pe = None
    /\ In (EventsUpdate (updateParams pe) r)
         (trace (snd (updateEvents sampleExt sampleToString cancellingBatch
                        "example.com" st0))).
Proof.
  destruct (@deleted_event_without_calendar_id_is_updated nat _ _ _ _ _ _ _ _
              (sample_reachesUpdates cancellingBatch
                 ltac:(vm_compute; reflexivity)))
    as (tr & Htr & Hdeleted & _).
  destruct (Hdeleted (markDeleted eventA)) as (pe & r & Hid & _ & Hcal & _ & Hin).
  - simpl. right. left. reflexivity.
  - reflexivity.
  - reflexivity.
  - exists pe, r. split; [exact Hid |]. split; [exact Hcal |].
    rewrite Htr. apply in_or_app. now right.
Defined.

Lemma marking_stops_when_user_is_not_found_witness :
  sendInviteHandler sampleExt sampleEnv
    (sampleRequest ["evt-1"; "evt-2"] "bob@example.com") st0
  = (Ok {| status := 200; json_data := true |},
     {| world := 2;
        trace := [SendInvite ["evt-1"; "evt-2"] "bob@example.com" (Ok tt);
                  UserFindUnique "bob@example.com" (Ok None)] |}).
Proof.
  apply (@marking_stops_when_user_is_not_found nat sampleExt sampleEnv
           (sampleRequest ["evt-1"; "evt-2"] "bob@example.com")
           ["evt-1"; "evt-2"] "bob@example.com" st0 1 2);
    solve [reflexivity | simpl; lia].
Defined.

Lemma sample_validRequest (events : list string) (email : string) :
  nonEmpty email = true ->
  validRequest sampleEnv (sampleRequest events email) events email.
Proof. intros H. repeat split. exact H. Defined.

Lemma failed_rsvp_update_is_logged_witness :
  forRange 2 0 (markTurn sampleExt ["evt-1"; "evt-2"] "ada@example.com") tt st0
  = forRange 1 1 (markTurn sampleExt ["evt-1"; "evt-2"] "ada@example.com") tt
      {| world := 2;
         trace := [UserFindUnique "ada@example.com" (Ok (Some ada));
                   RsvpUpdate (Some "evt-1") "u-ada"
                     (Throw (Failure "Record to update not found."));
                   ConsoleError (Caught (Failure "Record to update not found."))] |}
  /\ (exists tr w,
         sendInviteHandler sampleExt sampleEnv
           (sampleRequest ["evt-1"; "evt-2"] "ada@example.com") st0
         = (Ok {| status := 200; json_data := true |},
            {| world := w;
               trace := SendInvite ["evt-1"; "evt-2"] "ada@example.com" (Ok tt)
                        :: tr |})
         /\ rsvpCalls tr = [Some "evt-1"; Some "evt-2"]
         /\ rsvpFailures tr = [Failure "Record to update not found."]
         /\ errorLines tr = [Caught (Failure "Record to update not found.")])
  /\ (exists tr,
         trace (snd (sendInviteHandler sampleExt sampleEnv
                       (sampleRequest ["evt-1"; "evt-2"] "ada@example.com") st0))
         = SendInvite ["evt-1"; "evt-2"] "ada@example.com" (Ok tt) :: tr
         /\ rsvpCalls tr = [Some "evt-1"; Some "evt-2"]
         /\ fst (sendInviteHandler sampleExt sampleEnv
                   (sampleRequest ["evt-1"; "evt-2"] "ada@example.com") st0)
            = Ok {| status := 200; json_data := true |}).
Proof.
  destruct (@failed_rsvp_update_is_logged_and_loop_goes_on nat sampleExt
              ["evt-1"; "evt-2"] "ada@example.com")
    as (Hturn & _ & Hrun & Hall).
  split; [| split].
  - apply (Hturn 0 1 ada (Failure "Record to update not found.") st0 1 2);
      reflexivity.
  - destruct (Hall sampleEnv (sampleRequest ["evt-1"; "evt-2"] "ada@example.com")
                st0 1
                (sample_validRequest ["evt-1"; "evt-2"] "ada@example.com" eq_refl)
                eq_refl
                (fun w => ex_intro _ ada (ex_intro _ (S w) eq_refl)))
      as (tr & w & Hhandler & Hcalls & Hlines).
    exists tr, w. split; [exact Hhandler |]. split; [exact Hcalls |].
    assert (rsvpFailures tr = [Failure "Record to update not found."]) as Hfail.
    { pose proof (f_equal (fun out => trace (snd out)) Hhandler) as E.
      vm_compute in E. injection E as E. rewrite <- E. reflexivity. }
    split; [exact Hfail |]. rewrite Hlines, Hfail. reflexivity.
  - destruct (Hrun sampleEnv (sampleRequest ["evt-1"; "evt-2"] "ada@example.com")
                st0 1
                (sample_validRequest ["evt-1"; "evt-2"] "ada@example.com" eq_refl)
                eq_refl)
      as (tr & m & Htr & Hcalls & _ & Hstop).
    exists tr. split; [exact Htr |].
    destruct Hstop as [[-> Hok]|[(_ & _ & tr0 & Hlast)|(_ & e & tr0 & He & _)]].
    + split; [exact Hcalls | exact Hok].
    + exfalso. pose proof Htr as E. vm_compute in E. injection E as E.
      rewrite <- E in Hlast.
      change (([UserFindUnique "ada@example.com" (Ok (Some ada));
                RsvpUpdate (Some "evt-1") "u-ada"
                  (Throw (Failure "Record to update not found."));
                ConsoleError (Caught (Failure "Record to update not found."));
                UserFindUnique "ada@example.com" (Ok (Some ada))]
               ++ [RsvpUpdate (Some "evt-2") "u-ada" (Ok tt)])
              = tr0 ++ [UserFindUnique "ada@example.com" (Ok None)]) in Hlast.
      apply app_inj_tail in Hlast as [_ Hlast]. discriminate Hlast.
    + vm_compute in He. discriminate He.
Defined.

(** * Further properties of the synchroniser and of the handler *)

(** ** Arrays, continued *)

Lemma mapThrow_Throw_inv {A B} (f : A -> result B) (xs : list A) (e : Thrown) :
  mapThrow f xs = Throw e -> exists x, In x xs /\ f x = Throw e.
Proof.
  induction xs as [|x xs IH]; simpl; [discriminate |].
  destruct (f x) as [y|e'] eqn:Fx.
  - destruct (mapThrow f xs) as [ys|e'']; [discriminate |].
    intros H. inversion H; subst.
    destruct (IH eq_refl) as (x' & Hin & Hx'). exists x'. auto.
  - intros H. inversion H; subst. exists x. auto.
Qed.

Lemma mapThrow_Ok {A B} (f : A -> result B) (xs : list A) :
  Forall (fun x => exists y, f x = Ok y) xs -> exists ys, mapThrow f xs = Ok ys.
Proof.
  induction 1 as [|x xs [y Hy] _ [ys IH]]; simpl.
  - now exists [].
  - rewrite Hy, IH. now exists (y :: ys).
Qed.

Lemma mapThrow_app {A B} (f : A -> result B) (xs ys : list A) :
  mapThrow f (xs ++ ys)
  = match mapThrow f xs with
    | Throw e => Throw e
    | Ok xs' => match mapThrow f ys with
                | Throw e => Throw e
                | Ok ys' => Ok (xs' ++ ys')
                end
    end.
Proof.
  induction xs as [|x xs IH]; simpl.
  - destruct (mapThrow f ys); reflexivity.
  - destruct (f x); [| reflexivity]. rewrite IH.
    destruct (mapThrow f xs); [| reflexivity].
    destruct (mapThrow f ys); reflexivity.
Qed.

Section Coverage.

Variable W : Type.
Variable ext : External W.
Variable Date_toString : Date -> string.

(** ** [parseEvents] as a whole *)

Lemma parseEvents_throws_only (events : list FullEvent.t) (reqHost : string)
  (e : Thrown) :
  parseEvents Date_toString events reqHost = Throw e -> e = thrownByParse.
Proof.
  unfold parseEvents. intros H.
  apply mapThrow_Throw_inv in H as (x & _ & Hx).
  destruct (truthy (FullEvent.gCalEventId x)); simpl in Hx; [discriminate |].
  now inversion Hx.
Qed.

Lemma parseEvents_succeeds (events : list FullEvent.t) (reqHost : string) :
  Forall (fun e => truthy (FullEvent.gCalEventId e) = true) events ->
  exists parsed, parseEvents Date_toString events reqHost = Ok parsed.
Proof.
  intros HF. unfold parseEvents. apply mapThrow_Ok.
  apply Forall_impl with (2 := HF). intros e He. rewrite He. simpl.
  eexists. reflexivity.
Qed.

(** X1.  [parseEvents] returns a list exactly when every event has a remote
    event id, and throws its one error exactly when some event has none. *)
Theorem parseEvents_succeeds_iff_all_have_remote_id :
  forall (events : list FullEvent.t) (reqHost : string),
    ((exists parsed, parseEvents Date_toString events reqHost = Ok parsed)
     <-> Forall (fun e => truthy (FullEvent.gCalEventId e) = true) events)
    /\ (parseEvents Date_toString events reqHost = Throw thrownByParse
        <-> exists e, In e events /\ truthy (FullEvent.gCalEventId e) = false).
Proof.
  intros events reqHost. split; split.
  - intros [parsed H]. apply parseEvents_each in H.
    induction H as [|e p es ps Hp _ IH]; constructor; [| exact IH].
    destruct Hp as (R & _). exact R.
  - apply parseEvents_succeeds.
  - unfold parseEvents. intros H.
    apply mapThrow_Throw_inv in H as (x & Hin & Hx). exists x.
    split; [assumption |].
    destruct (truthy (FullEvent.gCalEventId x)); simpl in Hx;
      [discriminate | reflexivity].
  - intros (e & Hin & Hf). now apply parseEvents_missing_id with (e := e).
Qed.

(** X2.  [parseEvents] keeps one payload per event, in the order of the events,
    with the id, the deleted flag and the two links of each event; no
    payload has attendees yet, and none lets guests see or invite others. *)
Theorem parseEvents_keeps_events_in_order :
  forall (events : list FullEvent.t) (reqHost : string)
         (parsed : list ParsedEvent.t),
    parseEvents Date_toString events reqHost = Ok parsed ->
    length parsed = length events
    /\ map ParsedEvent.databaseId parsed = map FullEvent.id events
    /\ map ParsedEvent.isDeleted parsed = map FullEvent.isDeleted events
    /\ map ParsedEvent.gCalEventId parsed = map FullEvent.gCalEventId events
    /\ map ParsedEvent.gCalId parsed = map FullEvent.gCalId events
    /\ Forall (fun p => ParsedEvent.attendees p = None
                        /\ ParsedEvent.guestsCanSeeOtherGuests p = false
                        /\ ParsedEvent.guestsCanInviteOthers p = false) parsed.
Proof.
  intros events reqHost parsed H.
  unfold parseEvents in H. apply mapThrow_Forall2 in H.
  induction H as [|e p es ps Hp _ (L & I & D & R & C & F)]; simpl.
  - repeat split; constructor.
  - destruct (truthy (FullEvent.gCalEventId e)); simpl in Hp; [| discriminate].
    inversion Hp; subst; clear Hp. simpl.
    repeat split; try congruence.
    constructor; auto.
Qed.

(** X3.  [parseEvents] of a concatenation is the concatenation of the parsed
    parts, and throws as soon as one part does. *)
Theorem parseEvents_app :
  forall (first second : list FullEvent.t) (reqHost : string),
    parseEvents Date_toString (first ++ second) reqHost
    = match parseEvents Date_toString first reqHost with
      | Throw e => Throw e
      | Ok parsedFirst =>
          match parseEvents Date_toString second reqHost with
          | Throw e => Throw e
          | Ok parsedSecond => Ok (parsedFirst ++ parsedSecond)
          end
      end.
Proof.
  intros first second reqHost. unfold parseEvents. apply mapThrow_app.
Qed.


(** ** Traces *)

Lemma updateCalls_app (tr1 tr2 : list Effect) :
  updateCalls (tr1 ++ tr2) = updateCalls tr1 ++ updateCalls tr2.
Proof. induction tr1 as [|[] tr1 IH]; simpl; congruence. Qed.

Lemma updateOutcomes_app (tr1 tr2 : list Effect) :
  updateOutcomes (tr1 ++ tr2) = updateOutcomes tr1 ++ updateOutcomes tr2.
Proof. induction tr1 as [|[] tr1 IH]; simpl; congruence. Qed.

Lemma failedFetches_app (tr1 tr2 : list Effect) :
  failedFetches (tr1 ++ tr2) = failedFetches tr1 ++ failedFetches tr2.
Proof.
  induction tr1 as [|[| ? ? [] | | | | |] tr1 IH]; simpl; congruence.
Qed.

Lemma issued_no_fetch (eventsToUpdate : list ParsedEvent.t) (tr : list Effect) :
  Forall2 (fun e eff => exists r, eff = EventsUpdate (updateParams e) r)
    eventsToUpdate tr ->
  failedFetches tr = [].
Proof. induction 1 as [|e eff l tr [r ->] _ IH]; simpl; auto. Qed.

Lemma new_trace_unique (st : St W) (tr1 tr2 : list Effect) :
  trace st ++ tr1 = trace st ++ tr2 -> tr1 = tr2.
Proof. apply app_inv_head. Qed.

(** ** The prefill loop, continued *)

Lemma Prefilled_no_failed_fetch parsedEvents tr out :
  Prefilled parsedEvents tr out -> failedFetches tr = [].
Proof. induction 1; simpl; auto. Qed.

(** A prefill loop that throws was stopped by a fetch that failed, and had
    seen no failed fetch and made no update before. *)
Lemma forEach_prefill_fails (parsedEvents : list ParsedEvent.t) :
  forall acc st e st',
    forEach (prefillStep ext) parsedEvents acc st = (Throw e, st') ->
    exists tr calendarId gCalEventId,
      trace st' = trace st ++ tr ++ [GetEvent calendarId gCalEventId (Throw e)]
      /\ updateCalls tr = [] /\ failedFetches tr = [].
Proof.
  induction parsedEvents as [|pe rest IH]; intros acc st e st' H.
  - discriminate.
  - cbn [forEach] in H. unfold bind, prefillStep in H.
    destruct (ParsedEvent.isDeleted pe) eqn:D.
    + simpl in H. now apply IH in H.
    + destruct (truthy (ParsedEvent.gCalEventId pe)) eqn:R; simpl in H.
      * destruct (truthy (ParsedEvent.gCalId pe)) eqn:C; simpl in H.
        -- unfold await_getEvent, bind, invoke, await, lift in H.
           destruct (getEvent ext (narrowed (ParsedEvent.gCalId pe))
                       (narrowed (ParsedEvent.gCalEventId pe)) (world st))
             as [[remote|e'] w] eqn:G; simpl in H.
           ++ apply IH in H as (tr & c & i & Htr & Hu & Hf). simpl in Htr.
              exists (GetEvent (narrowed (ParsedEvent.gCalId pe))
                        (narrowed (ParsedEvent.gCalEventId pe)) (Ok remote) :: tr),
                c, i.
              rewrite Htr, <- app_assoc. simpl. auto.
           ++ inversion H; subst. exists [], (narrowed (ParsedEvent.gCalId pe)),
                (narrowed (ParsedEvent.gCalEventId pe)). simpl. auto.
        -- apply IH in H as (tr & c & i & Htr & Hu & Hf). simpl in Htr.
           exists (ConsoleError (Text "gCalId not defined for the event") :: tr),
             c, i.
           rewrite Htr, <- app_assoc. simpl. auto.
      * apply IH in H as (tr & c & i & Htr & Hu & Hf). simpl in Htr.
        exists (ConsoleError (Text "gcalEvent id in parsed event not found") :: tr),
          c, i.
        rewrite Htr, <- app_assoc. simpl. auto.
Qed.

Lemma Prefilled_payloads parsedEvents tr out :
  Prefilled parsedEvents tr out ->
  Forall (fun pe => truthy (ParsedEvent.gCalEventId pe) = true) parsedEvents ->
  Forall2
    (fun pe sent =>
       if ParsedEvent.isDeleted pe then sent = pe
       else exists attendees, sent = ParsedEvent.withAttendees pe attendees)
    (filter (fun pe => ParsedEvent.isDeleted pe || truthy (ParsedEvent.gCalId pe))
       parsedEvents)
    out.
Proof.
  induction 1 as [|pe rest tr out D _ IH|pe rest tr out D R _ IH
                  |pe rest tr out D R C _ IH|pe remote rest tr out D R C _ IH];
    intros Hall; simpl; try constructor;
    inversion Hall as [|? ? Hpe Hrest]; subst;
    try rewrite D; try rewrite C; simpl; try congruence; auto.
  - constructor; auto. now rewrite D.
  - constructor; auto. rewrite D. eexists. reflexivity.
Qed.

Lemma Prefilled_sent_have_remote_id parsedEvents tr out :
  Prefilled parsedEvents tr out ->
  Forall (fun pe => truthy (ParsedEvent.gCalEventId pe) = true) parsedEvents ->
  Forall (fun sent => truthy (ParsedEvent.gCalEventId sent) = true) out.
Proof.
  induction 1; intros Hall; inversion Hall; subst; try constructor; auto.
Qed.


(** ** The four ways a run of [updateEvents] can go *)

Lemma updateEvents_cases (events : Batch) (reqHost : string) (st : St W) :
  (parseEvents Date_toString (workingSet events) reqHost = Throw thrownByParse
   /\ updateEvents ext Date_toString events reqHost st = (Throw thrownByParse, st))
  \/ (exists parsed e w,
         parseEvents Date_toString (workingSet events) reqHost = Ok parsed
         /\ getCalendar ext (world st) = (Throw e, w)
         /\ updateEvents ext Date_toString events reqHost st
            = (Throw e, {| world := w; trace := trace st ++ [GetCalendar (Some e)] |}))
  \/ (exists e st' tr calendarId gCalEventId,
         updateEvents ext Date_toString events reqHost st = (Throw e, st')
         /\ trace st'
            = trace st
              ++ GetCalendar None
                 :: tr ++ [GetEvent calendarId gCalEventId (Throw e)]
         /\ updateCalls tr = [] /\ failedFetches tr = [])
  \/ (exists calendar eventsToUpdate st2,
         reachesUpdates ext Date_toString events reqHost st calendar
           eventsToUpdate st2).
Proof.
  destruct (parseEvents Date_toString (workingSet events) reqHost)
    as [parsed|e] eqn:P.
  - right.
    destruct (getCalendar ext (world st)) as [[calendar|e] w] eqn:G.
    + right.
      assert (await_getCalendar ext st
              = (Ok calendar,
                 {| world := w; trace := trace st ++ [GetCalendar None] |}))
        as Hcal
        by (unfold await_getCalendar, bind, invoke, await, lift; now rewrite G).
      destruct (forRange (length parsed) 0 (prefillTurn ext parsed) []
                  {| world := w; trace := trace st ++ [GetCalendar None] |})
        as [[toUpdate|e] st2] eqn:L.
      * right. exists calendar, toUpdate, st2. exists parsed. eexists. eauto.
      * left. exists e, st2.
        pose proof L as L'. rewrite prefill_loop_forEach in L'.
        apply forEach_prefill_fails in L' as (tr & c & i & Htr & Hu & Hf).
        exists tr, c, i. simpl in Htr. rewrite <- app_assoc in Htr. simpl in Htr.
        split; [| auto].
        unfold updateEvents. fold (workingSet events).
        unfold bind at 1. unfold lift at 1. rewrite P.
        unfold bind at 1. rewrite Hcal.
        unfold bind at 1. rewrite L. reflexivity.
    + left. exists parsed, e, w. split; [reflexivity |]. split; [reflexivity |].
      unfold updateEvents. fold (workingSet events).
      unfold bind at 1. unfold lift at 1. rewrite P.
      unfold bind at 1.
      unfold await_getCalendar, bind, invoke, await, lift. rewrite G.
      reflexivity.
  - left. apply parseEvents_throws_only in P as Pe. subst e.
    split; [reflexivity |].
    unfold updateEvents. fold (workingSet events).
    unfold bind at 1. unfold lift at 1. now rewrite P.
Qed.

(** ** Runs of [updateEvents] that fail *)

(** X4.  When every event has a remote event id and [getCalendar] rejects, the
    run rejects with what [getCalendar] threw; nothing was fetched, updated
    or logged. *)
Theorem getCalendar_rejection_stops_the_run :
  forall (events : Batch) (reqHost : string) (st : St W) (e : Thrown) (w : W),
    Forall (fun x => truthy (FullEvent.gCalEventId x) = true) (workingSet events) ->
    getCalendar ext (world st) = (Throw e, w) ->
    updateEvents ext Date_toString events reqHost st
    = (Throw e, {| world := w; trace := trace st ++ [GetCalendar (Some e)] |}).
Proof.
  intros events reqHost st e w Hall G.
  destruct (parseEvents_succeeds reqHost Hall) as [parsed P].
  unfold updateEvents. fold (workingSet events).
  unfold bind at 1. unfold lift at 1. rewrite P.
  unfold bind at 1.
  unfold await_getCalendar, bind, invoke, await, lift. rewrite G. reflexivity.
Qed.

(** X5.  In any run, an attendee fetch that fails ends the run at once: the run
    rejects with what the fetch threw, it is the only fetch that failed,
    and no update has been or will be sent to the provider, not even for
    the events handled before. *)
Theorem failed_fetch_aborts_before_any_update :
  forall (events : Batch) (reqHost : string) (st : St W) (tr : list Effect)
         (e : Thrown),
    trace (snd (updateEvents ext Date_toString events reqHost st))
    = trace st ++ tr ->
    In e (failedFetches tr) ->
    fst (updateEvents ext Date_toString events reqHost st) = Throw e
    /\ failedFetches tr = [e]
    /\ updateCalls tr = [].
Proof.
  intros events reqHost st tr e Htr Hin.
  destruct (updateEvents_cases events reqHost st)
    as [[_ Hrun]|[(parsed & e' & w & _ & _ & Hrun)
                 |[(e' & st' & tr' & c & i & Hrun & Htr' & Hu & Hf)
                  |(calendar & toUpdate & st2 & Hreach)]]].
  - rewrite Hrun in Htr. simpl in Htr.
    rewrite <- (app_nil_r (trace st)) in Htr at 1.
    apply new_trace_unique in Htr. subst tr. contradiction.
  - rewrite Hrun in Htr. simpl in Htr.
    apply new_trace_unique in Htr. subst tr. contradiction.
  - rewrite Hrun in *. simpl in Htr. rewrite Htr' in Htr.
    apply new_trace_unique in Htr. subst tr.
    simpl in Hin |- *. rewrite failedFetches_app, updateCalls_app in *.
    rewrite Hf, Hu in *. simpl in *.
    destruct Hin as [->|[]]. auto.
  - exfalso.
    destruct (reachesUpdates_loop Hreach) as (parsed & loopTrace & _ & Hloop & HP).
    destruct (updateEvents_outcome Hreach) as (tr' & w & Hrun & Hcalls).
    rewrite Hrun in Htr. simpl in Htr. rewrite Hloop, <- app_assoc in Htr.
    apply new_trace_unique in Htr. subst tr.
    simpl in Hin. rewrite failedFetches_app in Hin.
    rewrite (Prefilled_no_failed_fetch HP), (issued_no_fetch Hcalls) in Hin.
    contradiction.
Qed.

(** X6.  In any run, every update sent to the provider names a remote event:
    its [eventId] is the non-empty remote id carried by its request body. *)
Theorem updates_always_name_a_remote_event :
  forall (events : Batch) (reqHost : string) (st : St W) (tr : list Effect),
    trace (snd (updateEvents ext Date_toString events reqHost st))
    = trace st ++ tr ->
    Forall (fun params =>
              eventId params = ParsedEvent.gCalEventId (requestBody params)
              /\ truthy (eventId params) = true)
      (updateCalls tr).
Proof.
  intros events reqHost st tr Htr.
  destruct (updateEvents_cases events reqHost st)
    as [[_ Hrun]|[(parsed & e' & w & _ & _ & Hrun)
                 |[(e' & st' & tr' & c & i & Hrun & Htr' & Hu & Hf)
                  |(calendar & toUpdate & st2 & Hreach)]]].
  - rewrite Hrun in Htr. simpl in Htr.
    rewrite <- (app_nil_r (trace st)) in Htr at 1.
    apply new_trace_unique in Htr. subst tr. constructor.
  - rewrite Hrun in Htr. simpl in Htr.
    apply new_trace_unique in Htr. subst tr. constructor.
  - rewrite Hrun in *. simpl in Htr. rewrite Htr' in Htr.
    apply new_trace_unique in Htr. subst tr.
    simpl. rewrite updateCalls_app, Hu. constructor.
  - destruct (reachesUpdates_loop Hreach)
      as (parsed & loopTrace & Hparse & Hloop & HP).
    destruct (updateEvents_outcome Hreach) as (tr' & w & Hrun & Hcalls).
    rewrite Hrun in Htr. simpl in Htr. rewrite Hloop, <- app_assoc in Htr.
    apply new_trace_unique in Htr. subst tr.
    simpl. rewrite updateCalls_app, (Prefilled_no_update HP). simpl.
    apply issued_updateCalls in Hcalls as (-> & _).
    assert (Forall (fun pe => truthy (ParsedEvent.gCalEventId pe) = true) parsed)
      as Hall.
    { pose proof (parseEvents_each _ _ _ Hparse) as Heach. clear - Heach.
      induction Heach as [|e pe ws parsed Hp _ IH]; constructor; auto.
      destruct Hp as (R & _ & _ & _ & -> & _). exact R. }
    pose proof (Prefilled_sent_have_remote_id HP Hall) as Hsent.
    apply Forall_map. apply Forall_impl with (2 := Hsent).
    intros sent Hs. simpl. auto.
Qed.

(** ** What a run that returns has sent and returns *)

Lemma updateEvents_returns_reaches (events : Batch) (reqHost : string)
  (st : St W) (ids : list IdPair) (st' : St W) :
  updateEvents ext Date_toString events reqHost st = (Ok ids, st') ->
  exists calendar eventsToUpdate st2,
    reachesUpdates ext Date_toString events reqHost st calendar eventsToUpdate st2.
Proof.
  intros Hok.
  destruct (updateEvents_cases events reqHost st)
    as [[_ Hrun]|[(parsed & e' & w & _ & _ & Hrun)
                 |[(e' & st2 & tr' & c & i & Hrun & _)|Hreach]]];
    try (rewrite Hrun in Hok; discriminate).
  exact Hreach.
Qed.

Lemma mapi_from_databaseIds (allEvents : list FullEvent.t) :
  forall (responses : list UpdateResponse) (rest : list FullEvent.t) (key : nat),
    (forall i, nth_error allEvents (key + i) = nth_error rest i) ->
    length responses <= length rest ->
    map databaseEventId
      (mapi_from key
         (fun i key =>
            {| calendarEventId := RemoteEvent.id (data i);
               databaseEventId :=
                 option_map FullEvent.id (nth_error allEvents key) |})
         responses)
    = map (fun e => Some (FullEvent.id e)) (firstn (length responses) rest).
Proof.
  induction responses as [|u responses IH]; intros rest key Hnth Hlen; simpl;
    [reflexivity |].
  destruct rest as [|e rest]; simpl in Hlen; [lia |].
  simpl. f_equal.
  - specialize (Hnth 0). rewrite Nat.add_0_r in Hnth. now rewrite Hnth.
  - apply IH; [| lia].
    intros i. specialize (Hnth (S i)). rewrite Nat.add_succ_r in Hnth.
    exact Hnth.
Qed.

Lemma mapi_from_calendarIds (allEvents : list FullEvent.t) :
  forall (responses : list UpdateResponse) (key : nat),
    map calendarEventId
      (mapi_from key
         (fun i key =>
            {| calendarEventId := RemoteEvent.id (data i);
               databaseEventId :=
                 option_map FullEvent.id (nth_error allEvents key) |})
         responses)
    = map resolvedId (map Ok responses).
Proof.
  induction responses as [|u responses IH]; intros key; simpl; [reflexivity |].
  now rewrite IH.
Qed.

Lemma filter_length_bound {A} (f : A -> bool) (xs : list A) :
  length (filter f xs) <= length xs.
Proof. induction xs as [|x xs IH]; simpl; [lia |]. destruct (f x); simpl; lia. Qed.

(** X7.  A run that returns has sent one update for every event of the working
    set that is deleted or has a calendar id, in the order of the working
    set, and returns one pair per update.  The remote ids of the pairs are
    the ones the provider answered, in order; their database ids are those
    of the first events of the working set, as many as there are pairs. *)
Theorem returned_pairs_follow_the_working_set :
  forall (events : Batch) (reqHost : string) (st : St W) (ids : list IdPair)
         (st' : St W),
    updateEvents ext Date_toString events reqHost st = (Ok ids, st') ->
    exists tr,
      trace st' = trace st ++ tr
      /\ length ids = length (filter linked (workingSet events))
      /\ map (fun params => ParsedEvent.databaseId (requestBody params))
           (updateCalls tr)
         = map FullEvent.id (filter linked (workingSet events))
      /\ map calendarEventId ids = map resolvedId (updateOutcomes tr)
      /\ map databaseEventId ids
         = map (fun e => Some (FullEvent.id e))
             (firstn (length ids) (workingSet events)).
Proof.
  intros events reqHost st ids st' Hok.
  destruct (@updateEvents_returns_reaches _ _ _ _ _ Hok)
    as (calendar & toUpdate & st2 & Hreach).
  destruct (reachesUpdates_sent_and_logged Hreach)
    as (loopTrace & Hloop & _ & _ & Hsent).
  destruct (reachesUpdates_loop Hreach) as (parsed & loopTrace' & _ & Hloop' & HP).
  rewrite Hloop in Hloop'. apply new_trace_unique in Hloop'.
  inversion Hloop'; subst loopTrace'; clear Hloop'.
  destruct (updateEvents_outcome Hreach) as (tr & w & Hrun & Hcalls).
  rewrite Hrun in Hok.
  destruct (Promise_all (updateOutcomes tr)) as [updated|] eqn:P;
    [| discriminate].
  inversion Hok; subst ids st'; clear Hok.
  apply Promise_all_resolves in P.
  apply issued_updateCalls in Hcalls as (Hparams & _).
  pose proof (updateOutcomes_length tr) as L.
  rewrite P, Hparams, !length_map in L.
  assert (length updated = length (filter linked (workingSet events))) as Hlen.
  { rewrite L. rewrite <- (length_map ParsedEvent.databaseId), Hsent.
    now rewrite length_map. }
  exists (GetCalendar None :: loopTrace ++ tr). simpl.
  split; [rewrite Hloop, <- app_assoc; reflexivity |].
  unfold pairIds, mapi. rewrite mapi_from_length.
  split; [exact Hlen |]. split; [| split].
  - rewrite updateCalls_app, (Prefilled_no_update HP). simpl.
    rewrite Hparams, map_map. simpl. exact Hsent.
  - rewrite updateOutcomes_app.
    assert (updateOutcomes loopTrace = []) as ->.
    { pose proof (updateOutcomes_length loopTrace) as L'.
      rewrite (Prefilled_no_update HP) in L'.
      now destruct (updateOutcomes loopTrace). }
    simpl. rewrite P. apply mapi_from_calendarIds.
  - apply mapi_from_databaseIds; [reflexivity |].
    rewrite Hlen. apply filter_length_bound.
Qed.

Lemma filter_linked_workingSet (events : Batch) :
  filter linked (workingSet events)
  = filter linked (updated events) ++ map markDeleted (deleted events).
Proof.
  unfold workingSet. rewrite filter_app. f_equal.
  induction (deleted events) as [|e es IH]; simpl; [reflexivity |].
  now rewrite IH.
Qed.

(** X8.  In a run that gets as far as the updates, the updates are sent first
    for the updated events that are deleted or have a calendar id, then
    for every event of the deleted list, none left out. *)
Theorem deleted_events_are_sent_after_the_updated_ones :
  forall (events : Batch) (reqHost : string) (st : St W)
         (calendar : CalendarClient W) (eventsToUpdate : list ParsedEvent.t)
         (st2 : St W),
    reachesUpdates ext Date_toString events reqHost st calendar eventsToUpdate st2 ->
    exists tr,
      trace (snd (updateEvents ext Date_toString events reqHost st))
      = trace st2 ++ tr
      /\ map (fun params => (ParsedEvent.databaseId (requestBody params),
                             ParsedEvent.isDeleted (requestBody params)))
           (updateCalls tr)
         = map (fun e => (FullEvent.id e, FullEvent.isDeleted e))
             (filter linked (updated events))
           ++ map (fun e => (FullEvent.id e, true)) (deleted events).
Proof.
  intros events reqHost st calendar toUpdate st2 Hreach.
  destruct (reachesUpdates_loop Hreach)
    as (parsed & loopTrace & Hparse & Hloop & HP).
  destruct (updateEvents_outcome Hreach) as (tr & w & Hrun & Hcalls).
  exists tr. rewrite Hrun. split; [reflexivity |].
  apply issued_updateCalls in Hcalls as (-> & _).
  rewrite map_map. simpl.
  pose proof (parseEvents_each _ _ _ Hparse) as Heach.
  assert (Forall (fun pe => truthy (ParsedEvent.gCalEventId pe) = true) parsed)
    as Hall.
  { clear - Heach. induction Heach as [|e pe ws parsed Hp _ IH]; constructor; auto.
    destruct Hp as (R & _ & _ & _ & -> & _). exact R. }
  pose proof (Prefilled_payloads HP Hall) as Hpay.
  assert (map (fun sent => (ParsedEvent.databaseId sent, ParsedEvent.isDeleted sent))
            toUpdate
          = map (fun pe => (ParsedEvent.databaseId pe, ParsedEvent.isDeleted pe))
              (filter (fun pe => ParsedEvent.isDeleted pe
                                 || truthy (ParsedEvent.gCalId pe)) parsed))
    as ->.
  { clear - Hpay. induction Hpay as [|pe sent l out Hp _ IH]; simpl;
      [reflexivity |].
    rewrite IH. f_equal.
    destruct (ParsedEvent.isDeleted pe) eqn:D.
    - subst sent. now rewrite D.
    - destruct Hp as [a ->]. simpl. now rewrite D. }
  rewrite (filter_map_Forall2 linked
             (fun pe => ParsedEvent.isDeleted pe || truthy (ParsedEvent.gCalId pe))
             (fun e => (FullEvent.id e, FullEvent.isDeleted e))
             (fun pe => (ParsedEvent.databaseId pe, ParsedEvent.isDeleted pe))
             Heach).
  - rewrite filter_linked_workingSet, map_app, map_map. reflexivity.
  - intros e pe (_ & Hid & Hdel & Hcal & _). unfold linked.
    now rewrite Hdel, Hcal, Hid.
Qed.




(** ** Batches in which nothing can be sent *)

Lemma map_const_length {A B C} (c : C) (xs : list A) (ys : list B) :
  length xs = length ys -> map (fun _ => c) xs = map (fun _ => c) ys.
Proof.
  revert ys; induction xs as [|x xs IH]; intros [|y ys] H; simpl in *;
    try discriminate; [reflexivity |].
  f_equal. apply IH. lia.
Qed.


Lemma forEach_prefill_all_skipped (parsedEvents : list ParsedEvent.t) :
  Forall (fun pe => ParsedEvent.isDeleted pe = false
                    /\ truthy (ParsedEvent.gCalEventId pe) = true
                    /\ truthy (ParsedEvent.gCalId pe) = false) parsedEvents ->
  forall acc st,
    forEach (prefillStep ext) parsedEvents acc st
    = (Ok acc,
       {| world := world st;
          trace := trace st
                   ++ map (fun _ => ConsoleError
                                      (Text "gCalId not defined for the event"))
                        parsedEvents |}).
Proof.
  induction 1 as [|pe rest (D & R & C) _ IH]; intros acc st.
  - simpl. rewrite app_nil_r. now destruct st.
  - cbn [forEach]. unfold bind at 1. unfold prefillStep.
    rewrite D, R, C. simpl. rewrite IH. simpl.
    now rewrite <- app_assoc.
Qed.

(** X10.  When no event of the working set is deleted or has a calendar id, and
    [getCalendar] resolves, the run returns the empty list: it writes one
    error line per event and neither fetches nor updates anything.  An
    empty batch is the case of no line at all. *)
Theorem nothing_linked_returns_the_empty_list :
  forall (events : Batch) (reqHost : string) (st : St W)
         (calendar : CalendarClient W) (w : W),
    Forall (fun e => truthy (FullEvent.gCalEventId e) = true /\ linked e = false)
      (workingSet events) ->
    getCalendar ext (world st) = (Ok calendar, w) ->
    updateEvents ext Date_toString events reqHost st
    = (Ok [],
       {| world := w;
          trace := trace st
                   ++ GetCalendar None
                      :: map (fun _ => ConsoleError
                                         (Text "gCalId not defined for the event"))
                           (workingSet events) |}).
Proof.
  intros events reqHost st calendar w Hall G.
  destruct (@parseEvents_succeeds (workingSet events) reqHost) as [parsed P].
  { apply Forall_impl with (2 := Hall). now intros e [R _]. }
  pose proof (parseEvents_each _ _ _ P) as Heach.
  assert (Forall (fun pe => ParsedEvent.isDeleted pe = false
                            /\ truthy (ParsedEvent.gCalEventId pe) = true
                            /\ truthy (ParsedEvent.gCalId pe) = false) parsed)
    as Hskip.
  { clear - Heach Hall.
    induction Heach as [|e pe ws parsed Hp _ IH]; constructor;
      inversion Hall as [|? ? [R L] Hrest]; subst; auto.
    destruct Hp as (_ & _ & -> & -> & -> & _).
    unfold linked in L. apply orb_false_iff in L. tauto. }
  assert (length parsed = length (workingSet events)) as Hlen
    by (symmetry; eapply Forall2_length; exact Heach).
  unfold updateEvents. fold (workingSet events).
  unfold bind at 1. unfold lift at 1. rewrite P.
  unfold bind at 1.
  unfold await_getCalendar at 1. unfold bind at 1, invoke at 1. rewrite G.
  unfold await, lift at 1.
  unfold bind at 1. rewrite prefill_loop_forEach.
  rewrite (forEach_prefill_all_skipped Hskip).
  unfold bind, updateGcalPromises, lift, ret. simpl.
  rewrite <- app_assoc. simpl.
  now rewrite (map_const_length _ parsed (workingSet events) Hlen).
Qed.

(** ** The invite handler as a whole *)

(** X11.  A request without a list of events or without an email, and any
    request when [PROD_HOST] is not set, is rejected before anything is
    sent or looked up; the check of the request comes first. *)
Theorem invalid_request_is_rejected_untouched :
  forall (env : ProcessEnv) (req : NextApiRequest) (st : St W),
    ((body_events req = None \/ truthy (body_email req) = false) ->
     sendInviteHandler ext env req st
     = (Throw (JsError "`events` and/or `email` not found in req.body"), st))
    /\ (forall events,
           body_events req = Some events ->
           truthy (body_email req) = true ->
           truthy (PROD_HOST env) = false ->
           sendInviteHandler ext env req st
           = (Throw (JsError "set prodHost in .env -- the host of the app in prod"),
              st))
    /\ (forall events email,
           validRequest env req events email ->
           exists r w tr,
             sendInvite ext events email (world st) = (r, w)
             /\ trace (snd (sendInviteHandler ext env req st))
                = trace st ++ SendInvite events email r :: tr).
Proof.
  intros env req st. split; [| split].
  - intros [Hev|Hem]; unfold sendInviteHandler.
    + now rewrite Hev.
    + destruct (body_events req); [| reflexivity]. now rewrite Hem.
  - intros events Hev Hem Hhost. unfold sendInviteHandler.
    now rewrite Hev, Hem, Hhost.
  - intros events email Hvalid.
    destruct (sendInvite ext events email (world st)) as [[[]|e] w] eqn:Hsend.
    + destruct (forRange (length events) 0 (markTurn ext events email) tt
                  {| world := w;
                     trace := trace st ++ [SendInvite events email (Ok tt)] |})
        as [r st'] eqn:L.
      rewrite (@sendInviteHandler_after_sendInvite W ext env req events email st w r st' Hvalid Hsend L).
      apply marking_loop_run in L as (tr & m & Htr & _).
      exists (Ok tt), w, tr. split; [reflexivity |].
      simpl in Htr. rewrite <- app_assoc in Htr. exact Htr.
    + exists (Throw e), w, []. split; [reflexivity |].
      rewrite (@sendInviteHandler_valid W ext env req events email st Hvalid).
      unfold bind at 1. unfold await_sendInvite, bind at 1, invoke, await, lift.
      now rewrite Hsend.
Qed.

(** X12.  When [sendInvite] rejects, the handler rejects with what it threw and
    has not touched the database: no lookup, no RSVP update. *)
Theorem sendInvite_rejection_stops_the_handler :
  forall (env : ProcessEnv) (req : NextApiRequest) (events : list string)
         (email : string) (st : St W) (e : Thrown) (w : W),
    validRequest env req events email ->
    sendInvite ext events email (world st) = (Throw e, w) ->
    sendInviteHandler ext env req st
    = (Throw e,
       {| world := w; trace := trace st ++ [SendInvite events email (Throw e)] |}).
Proof.
  intros env req events email st e w Hvalid Hsend.
  exact (@sendInviteHandler_rejected W ext env req events email st e w Hvalid Hsend).
Qed.

(** X13.  For a valid request, the RSVP rows the handler tries to mark are those
    of the first events of the list, in order and each at most once; every
    lookup is for the email of the request, one per turn; and everything
    written to the error console is what an RSVP update threw. *)
Theorem marked_rows_are_a_prefix_of_the_list :
  forall (env : ProcessEnv) (req : NextApiRequest) (events : list string)
         (email : string) (st : St W),
    validRequest env req events email ->
    exists r tr m,
      trace (snd (sendInviteHandler ext env req st))
      = trace st ++ SendInvite events email r :: tr
      /\ m <= length events
      /\ rsvpCalls tr = map Some (firstn m events)
      /\ errorLines tr = map Caught (rsvpFailures tr)
      /\ Forall (eq email) (lookups tr)
      /\ (length (lookups tr) = m \/ length (lookups tr) = S m)
      /\ length (lookups tr) <= length events.
Proof.
  intros env req events email st Hvalid.
  destruct (sendInvite ext events email (world st)) as [[[]|e] w] eqn:Hsend.
  - destruct (forRange (length events) 0 (markTurn ext events email) tt
                {| world := w;
                   trace := trace st ++ [SendInvite events email (Ok tt)] |})
      as [r st'] eqn:L.
    rewrite (@sendInviteHandler_after_sendInvite W ext env req events email st w r st' Hvalid Hsend L).
    apply marking_loop_run in L
      as (tr & m & Htr & Hm & Hcalls & Hlines & Hlook & Hcount & Hbound & _).
    exists (Ok tt), tr, m.
    simpl in Htr. rewrite <- app_assoc in Htr.
    split; [exact Htr |].
    repeat split; auto.
    rewrite Hcalls. exact (nth_error_seq_firstn events [] Hm).
  - rewrite (@sendInviteHandler_rejected W ext env req events email st e w Hvalid Hsend).
    exists (Throw e), [], 0. simpl. repeat split; auto; lia.
Qed.

(** X14.  For a valid request the handler answers 200 with [data: true] unless
    [sendInvite] or a lookup of the user rejects, in which case it rejects
    with what that call threw: the answer is 200 or the handler throws what
    the last call of the run, [sendInvite] or a lookup, threw; and whenever
    [sendInvite] or a lookup of the run has rejected, the handler throws
    what that call threw, so that no such rejection is swallowed and none
    is followed by a 200.  What an RSVP update throws never reaches the
    caller, and the answer does not tell whether any row was marked. *)
Theorem handler_fails_only_on_sendInvite_or_lookup :
  forall (env : ProcessEnv) (req : NextApiRequest) (events : list string)
         (email : string) (st : St W),
    validRequest env req events email ->
    (fst (sendInviteHandler ext env req st)
     = Ok {| status := 200; json_data := true |}
     \/ exists e tr0,
         fst (sendInviteHandler ext env req st) = Throw e
         /\ (trace (snd (sendInviteHandler ext env req st))
             = trace st ++ tr0 ++ [SendInvite events email (Throw e)]
             \/ trace (snd (sendInviteHandler ext env req st))
                = trace st ++ tr0 ++ [UserFindUnique email (Throw e)]))
    /\ (exists tr,
           trace (snd (sendInviteHandler ext env req st)) = trace st ++ tr
           /\ forall e,
               ((exists evs a, In (SendInvite evs a (Throw e)) tr)
                \/ (exists em, In (UserFindUnique em (Throw e)) tr)) ->
               fst (sendInviteHandler ext env req st) = Throw e).
Proof.
  intros env req events email st Hvalid.
  destruct (sendInvite ext events email (world st)) as [[[]|e] w] eqn:Hsend.
  - destruct (forRange (length events) 0 (markTurn ext events email) tt
                {| world := w;
                   trace := trace st ++ [SendInvite events email (Ok tt)] |})
      as [r st'] eqn:L.
    rewrite (@sendInviteHandler_after_sendInvite W ext env req events email st w r st' Hvalid Hsend L).
    apply marking_loop_outcome in L
      as (tr & m & Htr & _ & _ & Hstop & Hrej & Hnone).
    simpl in Htr. rewrite <- app_assoc in Htr. simpl in Htr. cbn [fst snd].
    split.
    + destruct Hstop as [[_ ->]|[(_ & -> & _)|(_ & e & tr0 & -> & ->)]].
      * left. reflexivity.
      * left. reflexivity.
      * right. exists e, (SendInvite events email (Ok tt) :: tr0).
        split; [reflexivity |]. right.
        rewrite Htr. reflexivity.
    + exists (SendInvite events email (Ok tt) :: tr). split; [exact Htr |].
      intros e [(evs & a & [Heq|Hin])|(em & [Heq|Hin])]; try discriminate.
      * destruct (Hnone _ _ _ Hin).
      * now rewrite (Hrej _ _ Hin).
  - rewrite (@sendInviteHandler_rejected W ext env req events email st e w Hvalid Hsend).
    cbn [fst snd trace]. split.
    + right. exists e, []. split; [reflexivity |]. left. reflexivity.
    + exists [SendInvite events email (Throw e)]. split; [reflexivity |].
      intros e' [(evs & a & [Heq|[]])|(em & [Heq|[]])]; try discriminate.
      now inversion Heq.
Qed.

End Coverage.

(** * The limit field of the proposal form *)

Lemma digit_is_not_space_or_sign (c : ascii) :
  isDigit c = true ->
  isStrWhiteSpaceChar c = false /\ (c =? "-")%char = false
  /\ (c =? "+")%char = false.
Proof.
  unfold isDigit, digitOf, isStrWhiteSpaceChar.
  destruct c as [[] [] [] [] [] [] [] []]; vm_compute; intros H;
    try discriminate; auto.
Qed.


Lemma trimStart_split (s : string) :
  exists ws, s = (ws ++ trimStart s)%string
             /\ allOf isStrWhiteSpaceChar ws = true
             /\ startsWith isStrWhiteSpaceChar (trimStart s) = false.
Proof.
  induction s as [|c s (ws & E & Hws & Hstart)]; simpl.
  - exists ""%string. auto.
  - destruct (isStrWhiteSpaceChar c) eqn:Wc.
    + exists (String c ws). simpl. rewrite Wc, Hws, <- E. auto.
    + exists ""%string. simpl. auto.
Qed.

Lemma trimStart_app (ws rest : string) :
  allOf isStrWhiteSpaceChar ws = true ->
  startsWith isStrWhiteSpaceChar rest = false ->
  trimStart (ws ++ rest) = rest.
Proof.
  intros Hws Hrest. induction ws as [|c ws IH]; simpl in *.
  - destruct rest as [|c rest]; simpl in *; [reflexivity |]. now rewrite Hrest.
  - apply andb_true_iff in Hws as [Hc Hws]. rewrite Hc. auto.
Qed.


Lemma mathInt_zeros (digits : list nat) :
  Forall (eq 0) digits -> mathInt digits = 0.
Proof.
  unfold mathInt. induction 1 as [|d digits <- _ IH]; simpl; auto.
Qed.

Lemma digitRun_app (digits rest : string) :
  allOf isDigit digits = true ->
  startsWith isDigit rest = false ->
  length (digitRun (digits ++ rest)) = String.length digits
  /\ (allOf (Ascii.eqb "0") digits = true ->
      mathInt (digitRun (digits ++ rest)) = 0).
Proof.
  intros Hd Hr.
  assert (digitRun rest = []) as Hrest.
  { destruct rest as [|c rest]; [reflexivity |]. simpl in *.
    unfold isDigit in Hr. now destruct (digitOf c). }
  split.
  - induction digits as [|c digits IH]; cbn [append digitRun allOf] in *.
    + now rewrite Hrest.
    + apply andb_true_iff in Hd as [Hc Hd]. unfold isDigit in Hc.
      destruct (digitOf c); [| discriminate]. simpl. now rewrite IH.
  - intros Hzeros. apply mathInt_zeros.
    clear Hd. induction digits as [|c digits IH]; cbn [append digitRun allOf] in *.
    + rewrite Hrest. constructor.
    + apply andb_true_iff in Hzeros as [Hc Hzeros].
      pose proof (proj1 (Ascii.eqb_eq "0" c) Hc) as Hc'. subst c.
      change (digitOf "0") with (Some 0). constructor; auto.
Qed.


Lemma parseInt10_unsigned (s : string) :
  startsWith isStrWhiteSpaceChar s = false ->
  startsWith (fun c => ((c =? "-") || (c =? "+"))%char) s = false ->
  parseInt10 s
  = match digitRun s with
    | [] => NaN
    | digits => Integer false (mathInt digits)
    end.
Proof.
  intros Hw Hs. unfold parseInt10.
  destruct s as [|c s]; [reflexivity |]. cbn [trimStart startsWith] in *.
  rewrite Hw. cbv zeta. rewrite Hs.
  apply orb_false_iff in Hs as [-> _]. reflexivity.
Qed.


(** ** The limit field on any JavaScript string *)

Lemma utf16_digit_range (u : Utf16.CodeUnit) (d : nat) :
  Utf16.digitOf u = Some d ->
  (0x0030 <= u <= 0x0039)%N /\ d = N.to_nat (u - 0x0030).
Proof.
  unfold Utf16.digitOf.
  destruct ((0x0030 <=? u) && (u <=? 0x0039))%N eqn:R; [| discriminate].
  apply andb_true_iff in R as [A B]. apply N.leb_le in A, B.
  intros H. inversion H. auto.
Qed.

Lemma utf16_digit_is_not_space_or_sign (u : Utf16.CodeUnit) :
  Utf16.isDigit u = true ->
  Utf16.isStrWhiteSpaceChar u = false /\ Utf16.isMinus u = false
  /\ Utf16.isPlus u = false.
Proof.
  unfold Utf16.isDigit. destruct (Utf16.digitOf u) as [d|] eqn:D; [| discriminate].
  intros _. apply utf16_digit_range in D as [[A B] _].
  assert (forall c, (c < 0x0030 \/ 0x0039 < c)%N -> (u =? c)%N = false) as Hne
    by (intros c Hc; apply N.eqb_neq; lia).
  assert ((0x2000 <=? u)%N = false) as Hlow by (apply N.leb_gt; lia).
  unfold Utf16.isStrWhiteSpaceChar, Utf16.isMinus, Utf16.isPlus.
  rewrite Hlow, !Hne by lia. auto.
Qed.

Lemma utf16_sign_is_not_space (u : Utf16.CodeUnit) :
  Utf16.isMinus u || Utf16.isPlus u = true ->
  Utf16.isStrWhiteSpaceChar u = false.
Proof.
  unfold Utf16.isMinus, Utf16.isPlus. intros H.
  apply orb_true_iff in H as [H|H]; apply N.eqb_eq in H; subst u; reflexivity.
Qed.

Lemma utf16_trimStart_split (s : list Utf16.CodeUnit) :
  exists ws, s = ws ++ Utf16.trimStart s
             /\ forallb Utf16.isStrWhiteSpaceChar ws = true
             /\ Utf16.startsWith Utf16.isStrWhiteSpaceChar (Utf16.trimStart s)
                = false.
Proof.
  induction s as [|u s (ws & E & Hws & Hstart)]; cbn [Utf16.trimStart].
  - exists []. auto.
  - destruct (Utf16.isStrWhiteSpaceChar u) eqn:Wu.
    + exists (u :: ws). cbn [forallb app]. rewrite Wu, Hws, <- E. auto.
    + exists []. cbn [forallb app Utf16.startsWith]. auto.
Qed.

(** The digits of [s], as values. *)
Lemma utf16_digitRun_split (s : list Utf16.CodeUnit) :
  exists digits rest,
    s = digits ++ rest
    /\ forallb Utf16.isDigit digits = true
    /\ Utf16.startsWith Utf16.isDigit rest = false
    /\ length (Utf16.digitRun s) = length digits
    /\ (mathInt (Utf16.digitRun s) = 0
        <-> forallb (N.eqb 0x0030) digits = true).
Proof.
  assert (forall s acc,
             exists digits rest,
               s = digits ++ rest
               /\ forallb Utf16.isDigit digits = true
               /\ Utf16.startsWith Utf16.isDigit rest = false
               /\ length (Utf16.digitRun s) = length digits
               /\ (fold_left (fun a d => 10 * a + d) (Utf16.digitRun s) acc = 0
                   <-> acc = 0 /\ forallb (N.eqb 0x0030) digits = true)) as H.
  { clear s. induction s as [|u s IH]; intros acc.
    - exists [], []. cbn. repeat split; tauto.
    - cbn [Utf16.digitRun]. destruct (Utf16.digitOf u) as [d|] eqn:Du.
      + destruct (IH (10 * acc + d)) as (digits & rest & E & Hd & Hr & Hl & Hz).
        exists (u :: digits), rest. cbn [forallb app length fold_left].
        unfold Utf16.isDigit at 1. rewrite Du, Hd, <- E, Hl.
        split; [reflexivity |]. split; [reflexivity |].
        split; [assumption |]. split; [reflexivity |].
        apply utf16_digit_range in Du as [[A B] Dd]. split.
        * intros Hf. apply Hz in Hf as [Hacc Hzeros].
          assert (acc = 0 /\ d = 0) as [-> Hd0] by lia.
          split; [reflexivity |]. rewrite Hzeros.
          assert (u = 0x0030%N) as -> by lia. reflexivity.
        * intros [-> Hzeros]. apply andb_true_iff in Hzeros as [Hu Hzeros].
          apply Hz. split; [| assumption].
          apply N.eqb_eq in Hu. subst u d. reflexivity.
      + exists [], (u :: s). cbn [forallb app length fold_left Utf16.startsWith].
        unfold Utf16.isDigit. rewrite Du.
        repeat split; tauto. }
  destruct (H s 0) as (digits & rest & E & Hd & Hr & Hl & Hz).
  exists digits, rest. repeat split; auto.
  - intros Hm. now apply Hz in Hm.
  - intros Hzeros. apply Hz. auto.
Qed.

Lemma utf16_digitRun_app (digits rest : list Utf16.CodeUnit) :
  forallb Utf16.isDigit digits = true ->
  Utf16.startsWith Utf16.isDigit rest = false ->
  length (Utf16.digitRun (digits ++ rest)) = length digits
  /\ (forallb (N.eqb 0x0030) digits = true ->
      mathInt (Utf16.digitRun (digits ++ rest)) = 0).
Proof.
  intros Hd Hr.
  assert (Utf16.digitRun rest = []) as Hrest.
  { destruct rest as [|u rest]; [reflexivity |].
    cbn [Utf16.startsWith Utf16.digitRun] in *.
    unfold Utf16.isDigit in Hr. now destruct (Utf16.digitOf u). }
  split.
  - induction digits as [|u digits IH]; cbn [app Utf16.digitRun forallb] in *.
    + now rewrite Hrest.
    + apply andb_true_iff in Hd as [Hu Hd]. unfold Utf16.isDigit in Hu.
      destruct (Utf16.digitOf u); [| discriminate]. cbn [length]. now rewrite IH.
  - intros Hzeros. apply mathInt_zeros.
    clear Hd. induction digits as [|u digits IH];
      cbn [app Utf16.digitRun forallb] in *.
    + rewrite Hrest. constructor.
    + apply andb_true_iff in Hzeros as [Hu Hzeros].
      apply N.eqb_eq in Hu. subst u.
      change (Utf16.digitOf 0x0030%N) with (Some 0). constructor; auto.
Qed.

Lemma utf16_parseInt10_signed (u : Utf16.CodeUnit)
  (unsigned : list Utf16.CodeUnit) :
  Utf16.isMinus u || Utf16.isPlus u = true ->
  Utf16.parseInt10 (u :: unsigned)
  = match Utf16.digitRun unsigned with
    | [] => NaN
    | digits => Integer (Utf16.isMinus u) (mathInt digits)
    end.
Proof.
  intros Hu. unfold Utf16.parseInt10. cbn [Utf16.trimStart].
  rewrite (utf16_sign_is_not_space u Hu). cbv zeta. now rewrite Hu.
Qed.

Lemma utf16_parseInt10_unsigned (s : list Utf16.CodeUnit) :
  Utf16.startsWith Utf16.isStrWhiteSpaceChar s = false ->
  Utf16.startsWith (fun u => Utf16.isMinus u || Utf16.isPlus u) s = false ->
  Utf16.parseInt10 s
  = match Utf16.digitRun s with
    | [] => NaN
    | digits => Integer false (mathInt digits)
    end.
Proof.
  intros Hw Hs. unfold Utf16.parseInt10.
  destruct s as [|u s]; [reflexivity |].
  cbn [Utf16.trimStart Utf16.startsWith] in *.
  rewrite Hw. cbv zeta. rewrite Hs.
  apply orb_false_iff in Hs as [-> _]. reflexivity.
Qed.

Lemma utf16_parseInt10_skips_space (ws s : list Utf16.CodeUnit) :
  forallb Utf16.isStrWhiteSpaceChar ws = true ->
  Utf16.parseInt10 (ws ++ s) = Utf16.parseInt10 s.
Proof.
  intros Hws. unfold Utf16.parseInt10.
  induction ws as [|u ws IH]; [reflexivity |].
  cbn [forallb app Utf16.trimStart] in *.
  apply andb_true_iff in Hws as [Hu Hws]. rewrite Hu. now apply IH.
Qed.

(** On the code units below 256 the two models read a code unit alike. *)
Lemma codeUnit_agrees (c : ascii) :
  Utf16.isStrWhiteSpaceChar (N_of_ascii c) = isStrWhiteSpaceChar c
  /\ Utf16.digitOf (N_of_ascii c) = digitOf c
  /\ Utf16.isMinus (N_of_ascii c) = (c =? "-")%char
  /\ Utf16.isPlus (N_of_ascii c) = (c =? "+")%char.
Proof.
  destruct c as [[] [] [] [] [] [] [] []]; vm_compute; auto.
Qed.

Lemma codeUnits_trimStart (s : string) :
  Utf16.trimStart (codeUnits s) = codeUnits (trimStart s).
Proof.
  induction s as [|c s IH]; [reflexivity |].
  change (codeUnits (String c s)) with (N_of_ascii c :: codeUnits s).
  cbn [Utf16.trimStart trimStart].
  rewrite (proj1 (codeUnit_agrees c)).
  destruct (isStrWhiteSpaceChar c); [exact IH | reflexivity].
Qed.

Lemma codeUnits_digitRun (s : string) :
  Utf16.digitRun (codeUnits s) = digitRun s.
Proof.
  induction s as [|c s IH]; [reflexivity |].
  change (codeUnits (String c s)) with (N_of_ascii c :: codeUnits s).
  cbn [Utf16.digitRun digitRun].
  rewrite (proj1 (proj2 (codeUnit_agrees c))).
  destruct (digitOf c); [now rewrite IH | reflexivity].
Qed.

Lemma codeUnits_parseInt10 (s : string) :
  Utf16.parseInt10 (codeUnits s) = parseInt10 s.
Proof.
  unfold Utf16.parseInt10, parseInt10. rewrite codeUnits_trimStart.
  destruct (trimStart s) as [|c t]; [reflexivity |].
  change (codeUnits (String c t)) with (N_of_ascii c :: codeUnits t).
  cbv zeta.
  destruct (codeUnit_agrees c) as (_ & _ & -> & ->).
  destruct (((c =? "-") || (c =? "+"))%char).
  - now rewrite codeUnits_digitRun.
  - change (N_of_ascii c :: codeUnits t) with (codeUnits (String c t)).
    now rewrite codeUnits_digitRun.
Qed.

(** X15.  Whatever JavaScript string is entered, the [limit] field accepts
    it exactly when it is made of white space (any of the code units
    [parseInt] skips, those above U+00FF included), an optional sign, at
    least one decimal digit, and anything that does not start with a digit,
    where after a minus sign the digits must all be zeros.  So text after
    the digits is accepted, and 0 is.  On the strings of code units below
    256 the check is that of [limitAccepted]. *)
Theorem limit_accepted_iff :
  (forall val : list Utf16.CodeUnit,
      Utf16.limitAccepted val = true
      <-> exists ws sign digits rest,
          val = ws ++ sign ++ digits ++ rest
          /\ forallb Utf16.isStrWhiteSpaceChar ws = true
          /\ digits <> []
          /\ forallb Utf16.isDigit digits = true
          /\ Utf16.startsWith Utf16.isDigit rest = false
          /\ (sign = [] \/ sign = [0x002B%N]
              \/ (sign = [0x002D%N]
                  /\ forallb (N.eqb 0x0030) digits = true)))
  /\ (forall val : string,
         Utf16.limit_isNumber (codeUnits val) = limit_isNumber val
         /\ Utf16.limit_isNotNegative (codeUnits val) = limit_isNotNegative val
         /\ Utf16.limitAccepted (codeUnits val) = limitAccepted val).
Proof.
  split.
  2: { intros val.
       unfold Utf16.limitAccepted, Utf16.limit_isNumber,
         Utf16.limit_isNotNegative, limitAccepted, limit_isNumber,
         limit_isNotNegative.
       now rewrite codeUnits_parseInt10. }
  intros val.
  unfold Utf16.limitAccepted, Utf16.limit_isNumber, Utf16.limit_isNotNegative.
  split.
  - intros H.
    destruct (utf16_trimStart_split val) as (ws & E & Hws & Hstart).
    rewrite E in H. rewrite (@utf16_parseInt10_skips_space ws _ Hws) in H.
    destruct (Utf16.trimStart val) as [|u t] eqn:T; [discriminate |].
    cbn [Utf16.startsWith] in Hstart.
    destruct (Utf16.isMinus u || Utf16.isPlus u) eqn:Hsign.
    + rewrite (@utf16_parseInt10_signed u t Hsign) in H.
      destruct (utf16_digitRun_split t) as (digits & rest & Et & Hd & Hr & Hl & Hz).
      exists ws, [u], digits, rest.
      split; [rewrite E, Et; reflexivity |]. split; [assumption |].
      destruct (Utf16.digitRun t) as [|d ds] eqn:R; [discriminate |].
      split; [intros ->; discriminate |]. split; [assumption |].
      split; [assumption |].
      unfold Utf16.isMinus, Utf16.isPlus in *.
      destruct (N.eqb_spec u 0x002D) as [->|Hminus].
      * right. right. split; [reflexivity |]. apply Hz.
        cbn [Number_isNaN Number_geZero negb andb orb] in H.
        now apply Nat.eqb_eq.
      * right. left. cbn [orb] in Hsign. apply N.eqb_eq in Hsign.
        now subst u.
    + rewrite utf16_parseInt10_unsigned in H
        by (cbn [Utf16.startsWith]; assumption).
      destruct (utf16_digitRun_split (u :: t))
        as (digits & rest & Et & Hd & Hr & Hl & Hz).
      exists ws, [], digits, rest.
      split; [rewrite E, Et; reflexivity |]. split; [assumption |].
      destruct (Utf16.digitRun (u :: t)) as [|d ds] eqn:R; [discriminate |].
      split; [intros ->; discriminate |]. auto.
  - intros (ws & sign & digits & rest & -> & Hws & Hne & Hd & Hr & Hsign).
    rewrite (@utf16_parseInt10_skips_space ws _ Hws).
    destruct (utf16_digitRun_app digits rest Hd Hr) as [Hl Hz].
    assert (Utf16.digitRun (digits ++ rest) <> []) as Hrun.
    { intros R. rewrite R in Hl. destruct digits; [now apply Hne | discriminate]. }
    destruct Hsign as [->|[->|[-> Hzeros]]].
    + change ([] ++ digits ++ rest) with (digits ++ rest).
      destruct digits as [|u digits]; [contradiction |].
      cbn [forallb] in Hd. apply andb_true_iff in Hd as [Hu _].
      destruct (utf16_digit_is_not_space_or_sign u Hu) as (Hsp & Hmi & Hpl).
      rewrite utf16_parseInt10_unsigned.
      * destruct (Utf16.digitRun ((u :: digits) ++ rest));
          [contradiction | reflexivity].
      * exact Hsp.
      * cbn [app Utf16.startsWith]. now rewrite Hmi, Hpl.
    + change ([0x002B%N] ++ digits ++ rest) with (0x002B%N :: digits ++ rest).
      rewrite utf16_parseInt10_signed by reflexivity.
      destruct (Utf16.digitRun (digits ++ rest)); [contradiction | reflexivity].
    + change ([0x002D%N] ++ digits ++ rest) with (0x002D%N :: digits ++ rest).
      rewrite utf16_parseInt10_signed by reflexivity.
      specialize (Hz Hzeros).
      destruct (Utf16.digitRun (digits ++ rest)); [contradiction |].
      rewrite Hz. reflexivity.
Qed.


(** * The further properties at the sample deployments *)

Lemma parseEvents_succeeds_iff_witness :
  (exists parsed,
      parseEvents sampleToString [eventB; eventD] "example.com" = Ok parsed)
  /\ parseEvents sampleToString [eventB; eventC] "example.com"
     = Throw thrownByParse.
Proof.
  destruct (@parseEvents_succeeds_iff_all_have_remote_id sampleToString
              [eventB; eventD] "example.com") as [[_ Hok] _].
  destruct (@parseEvents_succeeds_iff_all_have_remote_id sampleToString
              [eventB; eventC] "example.com") as [_ [_ Hthrow]].
  split.
  - apply Hok. repeat constructor.
  - apply Hthrow. exists eventC. split; [simpl; auto | reflexivity].
Defined.

Lemma parseEvents_keeps_events_in_order_witness :
  exists parsed,
    parseEvents sampleToString (workingSet mixedBatch) "example.com" = Ok parsed
    /\ length parsed = 4
    /\ map ParsedEvent.databaseId parsed = ["A"; "B"; "A"; "B"]
    /\ map ParsedEvent.isDeleted parsed = [false; false; true; true].
Proof.
  eexists. split; [vm_compute; reflexivity |].
  destruct (@parseEvents_keeps_events_in_order sampleToString
              (workingSet mixedBatch) "example.com" _ eq_refl)
    as (L & I & D & _).
  auto.
Defined.

Lemma getCalendar_rejection_witness :
  updateEvents failingExt sampleToString cancellingBatch "example.com" lateState
  = (Throw (Failure "401 Unauthorized"),
     {| world := 11;
        trace := [GetCalendar (Some (Failure "401 Unauthorized"))] |}).
Proof.
  apply (@getCalendar_rejection_stops_the_run nat failingExt sampleToString
           cancellingBatch "example.com" lateState
           (Failure "401 Unauthorized") 11).
  - repeat constructor.
  - reflexivity.
Defined.

Lemma failed_fetch_aborts_witness :
  exists tr,
    trace (snd (updateEvents failingExt sampleToString unreadableBatch
                  "example.com" st0)) = tr
    /\ fst (updateEvents failingExt sampleToString unreadableBatch
              "example.com" st0) = Throw (Failure "403 Forbidden")
    /\ fetchCalls tr = [("primary", "remote-B"); ("private", "remote-E")]
    /\ updateCalls tr = [].
Proof.
  eexists. split; [reflexivity |].
  destruct (@failed_fetch_aborts_before_any_update nat failingExt sampleToString
              unreadableBatch "example.com" st0 _ (Failure "403 Forbidden")
              eq_refl)
    as (Hrun & _ & Hnone).
  - vm_compute. auto.
  - split; [exact Hrun |]. split; [vm_compute; reflexivity | exact Hnone].
Defined.

Lemma updates_always_name_a_remote_event_witness :
  Forall (fun params => truthy (eventId params) = true)
    (updateCalls
       (trace (snd (updateEvents sampleExt sampleToString mixedBatch
                      "example.com" st0))))
  /\ length
       (updateCalls
          (trace (snd (updateEvents sampleExt sampleToString mixedBatch
                         "example.com" st0)))) = 3.
Proof.
  split; [| vm_compute; reflexivity].
  eapply Forall_impl;
    [| apply (@updates_always_name_a_remote_event nat sampleExt sampleToString
                mixedBatch "example.com" st0 _ eq_refl)].
  intros params [_ H]. exact H.
Defined.

Lemma returned_pairs_witness :
  exists ids st',
    updateEvents sampleExt sampleToString mixedBatch "example.com" st0
    = (Ok ids, st')
    /\ length ids = 3
    /\ map databaseEventId ids = [Some "A"; Some "B"; Some "A"]
    /\ map (fun params => ParsedEvent.databaseId (requestBody params))
         (updateCalls (trace st'))
       = ["B"; "A"; "B"].
Proof.
  eexists. eexists. split; [vm_compute; reflexivity |].
  destruct (@returned_pairs_follow_the_working_set nat sampleExt sampleToString
              mixedBatch "example.com" st0 _ _ eq_refl)
    as (tr & Htr & Hlen & Hsent & _ & Hdb).
  split; [exact Hlen |]. split; [exact Hdb |].
  vm_compute. reflexivity.
Defined.

Lemma deleted_events_are_sent_witness :
  map (fun params => (ParsedEvent.databaseId (requestBody params),
                      ParsedEvent.isDeleted (requestBody params)))
    (updateCalls
       (trace (snd (updateEvents sampleExt sampleToString mixedBatch
                      "example.com" st0))))
  = [("B", false); ("A", true); ("B", true)].
Proof.
  destruct (@deleted_events_are_sent_after_the_updated_ones nat _ _ _ _ _ _ _ _
              (sample_reachesUpdates mixedBatch ltac:(vm_compute; reflexivity)))
    as (tr & Htr & Hsent).
  rewrite Htr, updateCalls_app, map_app, Hsent. reflexivity.
Defined.


Lemma nothing_linked_witness :
  updateEvents sampleExt sampleToString
    {| updated := [eventA; eventA]; deleted := [] |} "example.com" st0
  = (Ok [],
     {| world := 1;
        trace := [GetCalendar None;
                  ConsoleError (Text "gCalId not defined for the event");
                  ConsoleError (Text "gCalId not defined for the event")] |}).
Proof.
  apply (@nothing_linked_returns_the_empty_list nat sampleExt sampleToString
           {| updated := [eventA; eventA]; deleted := [] |} "example.com" st0
           sampleCalendar 1).
  - repeat constructor.
  - reflexivity.
Defined.


Lemma invalid_request_witness :
  sendInviteHandler sampleExt sampleEnv
    {| headers_host := None; body_events := None;
       body_email := Some "ada@example.com" |} st0
  = (Throw (JsError "`events` and/or `email` not found in req.body"), st0)
  /\ sendInviteHandler sampleExt {| PROD_HOST := None |}
       (sampleRequest ["evt-1"] "ada@example.com") st0
     = (Throw (JsError "set prodHost in .env -- the host of the app in prod"),
        st0).
Proof.
  split.
  - apply (proj1 (@invalid_request_is_rejected_untouched nat sampleExt sampleEnv
                    {| headers_host := None; body_events := None;
                       body_email := Some "ada@example.com" |} st0)).
    left. reflexivity.
  - apply (proj1 (proj2 (@invalid_request_is_rejected_untouched nat sampleExt
                           {| PROD_HOST := None |}
                           (sampleRequest ["evt-1"] "ada@example.com") st0))
             ["evt-1"]); reflexivity.
Defined.

Lemma sendInvite_rejection_witness :
  sendInviteHandler failingExt sampleEnv
    (sampleRequest ["evt-1"; "evt-2"] "bounce@example.com") st0
  = (Throw (Failure "550 Mailbox unavailable"),
     {| world := 1;
        trace := [SendInvite ["evt-1"; "evt-2"] "bounce@example.com"
                    (Throw (Failure "550 Mailbox unavailable"))] |}).
Proof.
  apply (@sendInvite_rejection_stops_the_handler nat failingExt sampleEnv
           (sampleRequest ["evt-1"; "evt-2"] "bounce@example.com")
           ["evt-1"; "evt-2"] "bounce@example.com" st0
           (Failure "550 Mailbox unavailable") 1).
  - now apply sample_validRequest.
  - reflexivity.
Defined.

Lemma marked_rows_witness :
  exists m,
    m <= 2
    /\ rsvpCalls
         (trace (snd (sendInviteHandler sampleExt sampleEnv
                        (sampleRequest ["evt-1"; "evt-2"] "ada@example.com") st0)))
       = map Some (firstn m ["evt-1"; "evt-2"]).
Proof.
  destruct (@marked_rows_are_a_prefix_of_the_list nat sampleExt sampleEnv
              (sampleRequest ["evt-1"; "evt-2"] "ada@example.com")
              ["evt-1"; "evt-2"] "ada@example.com" st0
              (sample_validRequest ["evt-1"; "evt-2"] "ada@example.com" eq_refl))
    as (r & tr & m & Htr & Hm & Hcalls & _).
  exists m. split; [exact Hm |].
  rewrite Htr. simpl. exact Hcalls.
Defined.

Lemma handler_fails_only_witness :
  fst (sendInviteHandler failingExt sampleEnv
         (sampleRequest ["evt-1"; "evt-2"] "down@example.com") st0)
  = Throw (Failure "P1001 Database unreachable")
  /\ (fst (sendInviteHandler sampleExt sampleEnv
             (sampleRequest ["evt-1"; "evt-2"] "ada@example.com") st0)
      = Ok {| status := 200; json_data := true |}).
Proof.
  split.
  - destruct (@handler_fails_only_on_sendInvite_or_lookup nat failingExt sampleEnv
                (sampleRequest ["evt-1"; "evt-2"] "down@example.com")
                ["evt-1"; "evt-2"] "down@example.com" st0
                (sample_validRequest ["evt-1"; "evt-2"] "down@example.com" eq_refl))
      as (_ & tr & Htr & Hrejected).
    apply Hrejected. right. exists "down@example.com"%string.
    vm_compute in Htr. rewrite <- Htr. right. left. reflexivity.
  - destruct (@handler_fails_only_on_sendInvite_or_lookup nat sampleExt sampleEnv
                (sampleRequest ["evt-1"; "evt-2"] "ada@example.com")
                ["evt-1"; "evt-2"] "ada@example.com" st0
                (sample_validRequest ["evt-1"; "evt-2"] "ada@example.com" eq_refl))
      as ([Hok|(e & tr0 & He & _)] & _).
    + exact Hok.
    + vm_compute in He. discriminate He.
Defined.

Lemma limit_accepted_witness :
  Utf16.limitAccepted
    ([0xFEFF; 0x3000; 0x0020] ++ [] ++ [0x0031; 0x0032] ++ [0x0020; 0x4EBA])%N
  = true
  /\ (exists ws sign digits rest,
         [0x002D; 0x0030]%N = ws ++ sign ++ digits ++ rest
         /\ digits <> []
         /\ forallb Utf16.isDigit digits = true)
  /\ Utf16.limitAccepted (codeUnits " 12 people") = limitAccepted " 12 people".
Proof.
  destruct limit_accepted_iff as [Hiff Hagree].
  split; [| split].
  - apply (proj2 (Hiff _)).
    exists [0xFEFF; 0x3000; 0x0020]%N, [], [0x0031; 0x0032]%N,
      [0x0020; 0x4EBA]%N.
    repeat split; auto. discriminate.
  - destruct (proj1 (Hiff [0x002D; 0x0030]%N) eq_refl)
      as (ws & sign & digits & rest & E & _ & Hne & Hd & _).
    exists ws, sign, digits, rest. auto.
  - apply Hagree.
Defined.

